(** * A tool-calling command-line agent: the conversation loop and its tools

    Shallow embedding of the three variants of the agent (the
    tool-augmented streaming agent, the plain streaming agent and the
    non-streaming agent) and of the five tools the first one exposes.

    - A JavaScript string is a [string]: a sequence of code units, here
      the code units below 256.
    - The line numbers of [readFile] are integers, in [Z].
    - The file system is a finite map from paths to the text of the
      files, with the set of the paths that may not be written.
    - What lies outside the process is given to the functions that use it:
      the [glob] package and the shell as functions, the lines the user
      types and the turns of the model backend as lists that a run of the
      loop consumes.
    - A function that may throw returns a [Completion]; a function that
      changes the state returns the new state. *)

From Stdlib Require Import ZArith Ascii String List Bool Lia.
From stdpp Require Import base option list gmap strings pretty.

Set Default Proof Using "Type".

(** ** JavaScript string primitives used by the tools *)

Module Js.

(** [s.startsWith(p)], returning what follows the prefix. *)
Fixpoint stripPrefix (p s : string) : option string :=
  match p, s with
  | EmptyString, _ => Some s
  | String a p', String b s' =>
      if Ascii.eqb a b then stripPrefix p' s' else None
  | String _ _, EmptyString => None
  end.

(** First occurrence of [sub] in [s] (the position [s.indexOf(sub)]),
    returned as the text before it and the text after it. *)
Fixpoint search (sub s : string) : option (string * string) :=
  match stripPrefix sub s with
  | Some following => Some (EmptyString, following)
  | None =>
      match s with
      | EmptyString => None
      | String c s' =>
          match search sub s' with
          | Some (preceding, following) => Some (String c preceding, following)
          | None => None
          end
      end
  end.

(** [s.includes(sub)]. *)
Definition includes (s sub : string) : bool :=
  match search sub s with Some _ => true | None => false end.

(** The abstract operation GetSubstitution of [String.prototype.replace]
    for a string pattern: there are no captures, so of the [$] forms only
    [$$], [$&], [$`] and [$'] are replaced; [$1] to [$99] and [$<] are
    copied as they are. *)
Fixpoint getSubstitution (matched preceding following template : string)
  : string :=
  match template with
  | EmptyString => EmptyString
  | String c t =>
      if Ascii.eqb c "$" then
        match t with
        | String d t' =>
            if Ascii.eqb d "$" then
              String "$" (getSubstitution matched preceding following t')
            else if Ascii.eqb d "&" then
              matched +:+ getSubstitution matched preceding following t'
            else if Ascii.eqb d "`" then
              preceding +:+ getSubstitution matched preceding following t'
            else if Ascii.eqb d "'" then
              following +:+ getSubstitution matched preceding following t'
            else String c (getSubstitution matched preceding following t)
        | EmptyString => String c EmptyString
        end
      else String c (getSubstitution matched preceding following t)
  end.

(** [s.replace(pattern, replacement)] with a string pattern: only the
    first occurrence is replaced, by the expansion of the replacement
    template. *)
Definition replace (s pattern replacement : string) : string :=
  match search pattern s with
  | None => s
  | Some (preceding, following) =>
      preceding
        +:+ getSubstitution pattern preceding following replacement
        +:+ following
  end.

(** The code units of a string, each as a string of length one. *)
Fixpoint codeUnits (s : string) : list string :=
  match s with
  | EmptyString => []
  | String c s' => String c EmptyString :: codeUnits s'
  end.

(** [s.split(sep)] for a non-empty separator; [n] bounds the number of
    separators still to be found. *)
Fixpoint splitAt (n : nat) (sep s : string) : list string :=
  match n with
  | O => [s]
  | S n' =>
      match search sep s with
      | None => [s]
      | Some (preceding, following) => preceding :: splitAt n' sep following
      end
  end.

(** [s.split(sep)]: an empty separator splits between code units. *)
Definition split (s sep : string) : list string :=
  match sep with
  | EmptyString => codeUnits s
  | String _ _ => splitAt (String.length s) sep s
  end.

(** [parts.join(sep)]. *)
Definition join (parts : list string) (sep : string) : string :=
  String.concat sep parts.

(** White space removed by [trim] (among code units below 256). *)
Definition isWhiteSpace (c : ascii) : bool :=
  match N_of_ascii c with
  | 9%N | 10%N | 11%N | 12%N | 13%N | 32%N | 160%N => true
  | _ => false
  end.

Fixpoint trimStart (s : string) : string :=
  match s with
  | EmptyString => EmptyString
  | String c s' => if isWhiteSpace c then trimStart s' else s
  end.

Definition trimEnd (s : string) : string :=
  String.rev (trimStart (String.rev s)).

(** [s.trim()]. *)
Definition trim (s : string) : string := trimEnd (trimStart s).

(** Truthiness of a string: only the empty string is falsy. *)
Definition truthy (s : string) : bool :=
  match s with EmptyString => false | String _ _ => true end.

End Js.

(** ** Results of operations that may throw *)

(** What a JavaScript call does: it returns a value or throws an error,
    of which the code only reads [error.message]. *)
Inductive Completion (A : Type) : Type :=
  | Normal (value : A)
  | Throw (message : string).
Arguments Normal {A} value.
Arguments Throw {A} message.

(** ** The file system *)

(** The files of the machine: a finite map from paths to the text they
    hold, and the paths that may not be written.  A path is taken as it is
    spelled: two spellings of it are two keys.  Directories are left
    implicit.  Reading a path that holds no file throws; writing creates
    or overwrites the file, and throws on a path that may not be written;
    the failures of a write are all taken as this one. *)
Module Fs.

Record Disk := {
  files : gmap string string;
  locked : gset string;
}.

Definition enoent (filePath : string) : string :=
  "ENOENT: no such file or directory, open '" +:+ filePath +:+ "'".

Definition eacces (filePath : string) : string :=
  "EACCES: permission denied, open '" +:+ filePath +:+ "'".

(** [fs.readFile(filePath, "utf-8")]. *)
Definition readFile (disk : Disk) (filePath : string) : Completion string :=
  match files disk !! filePath with
  | Some content => Normal content
  | None => Throw (enoent filePath)
  end.

(** [fs.writeFile(filePath, content, "utf-8")]. *)
Definition writeFile (disk : Disk) (filePath content : string)
  : Completion Disk :=
  if decide (filePath ∈ locked disk) then Throw (eacces filePath)
  else Normal {| files := <[filePath := content]> (files disk);
                 locked := locked disk |}.

(** A disk that holds [content] at [filePath] and nothing else, every
    path writable. *)
Definition holding (filePath content : string) : Disk :=
  {| files := {[ filePath := content ]}; locked := ∅ |}.

End Fs.

(** ** The file tools *)

Definition LF : string := String "010"%char EmptyString.

(** [array.slice(start, end)] on integers: a negative index counts from
    the end, and both are clamped to the array. *)
Definition slice {A : Type} (l : list A) (start finish : Z) : list A :=
  let len := Z.of_nat (length l) in
  let k := if (start <? 0)%Z then Z.max (len + start) 0 else Z.min start len in
  let final :=
    if (finish <? 0)%Z then Z.max (len + finish) 0 else Z.min finish len in
  take (Z.to_nat (final - k)) (drop (Z.to_nat k) l).

(** The template [`${n} | ${line}`] of [readFile]. *)
Definition numbered (n : Z) (line : string) : string :=
  pretty n +:+ " | " +:+ line.

(** [readFile({ filePath, offset = 1, limit = 2000 })], the defaults already
    filled in by the caller. *)
Definition readFile (filePath : string) (offset limit : Z)
    (disk : Fs.Disk) : string :=
  match Fs.readFile disk filePath with
  | Normal content =>
      let lines := Js.split content LF in
      let selectedLines :=
        Js.join
          (imap (fun index line => numbered (offset + Z.of_nat index) line)
                (slice lines (offset - 1) (offset - 1 + limit)))
          LF in
      selectedLines
  | Throw message => "Error reading file: " +:+ message
  end.

(** [createFile({ filePath, content })]; [fs.mkdir] with [recursive] makes
    the parent directories as needed.  The result is the text returned and
    the file system the call leaves. *)
Definition createFile (filePath content : string) (disk : Fs.Disk)
    : string * Fs.Disk :=
  match Fs.writeFile disk filePath content with
  | Normal disk' => ("File created successfully at " +:+ filePath, disk')
  | Throw message => ("Error creating file: " +:+ message, disk)
  end.

Definition oldStringNotFound : string :=
  "Error: oldString not found in file. Please ensure exact matching including indentation.".

(** [editFile({ filePath, oldString, newString, replaceAll })]; [replaceAll]
    is the truthiness of the argument. *)
Definition editFile (filePath oldString newString : string) (replaceAll : bool)
    (disk : Fs.Disk) : string * Fs.Disk :=
  match Fs.readFile disk filePath with
  | Normal content =>
      if negb (Js.includes content oldString) then (oldStringNotFound, disk)
      else
        let newContent :=
          if replaceAll
          then Js.join (Js.split content oldString) newString
          else Js.replace content oldString newString in
        match Fs.writeFile disk filePath newContent with
        | Normal disk' => ("File edited successfully at " +:+ filePath, disk')
        | Throw message => ("Error editing file: " +:+ message, disk)
        end
  | Throw message => ("Error editing file: " +:+ message, disk)
  end.

(** The replacement the tool is described as doing ("The new text to
    replace with"): the first occurrence of [oldString] gives way to
    [newString] itself. *)
Definition replaceFirstLiterally (content oldString newString : string)
    : string :=
  match Js.search oldString content with
  | None => content
  | Some (preceding, following) => preceding +:+ newString +:+ following
  end.

(** [sub] occurs in [s] as a verbatim substring. *)
Definition occursIn (sub s : string) : Prop :=
  exists preceding following, s = preceding +:+ sub +:+ following.

(** A replacement text is taken literally when it holds no dollar sign. *)
Fixpoint dollarFree (s : string) : bool :=
  match s with
  | EmptyString => true
  | String c s' => negb (Ascii.eqb c "$") && dollarFree s'
  end.

(** A line of text: no line feed in it. *)
Fixpoint isLine (s : string) : bool :=
  match s with
  | EmptyString => true
  | String c s' => negb (Ascii.eqb c "010") && isLine s'
  end.

(** ** Paths and JSON text *)

(** [path.join] and [path.normalize] of Node, POSIX flavour. *)
Module Path.

Definition isAbsolute (p : string) : bool :=
  match p with
  | String c _ => Ascii.eqb c "/"
  | EmptyString => false
  end.

Fixpoint endsWithSlash (p : string) : bool :=
  match p with
  | EmptyString => false
  | String c EmptyString => Ascii.eqb c "/"
  | String _ p' => endsWithSlash p'
  end.

(** One segment met by [normalizeString]; [stack] holds the segments kept
    so far, the last one first. *)
Definition segment (allowAboveRoot : bool) (stack : list string)
    (seg : string) : list string :=
  if String.eqb seg "" || String.eqb seg "." then stack
  else if String.eqb seg ".." then
    match stack with
    | top :: below =>
        if String.eqb top ".." then
          (if allowAboveRoot then seg :: stack else stack)
        else below
    | [] => if allowAboveRoot then [seg] else []
    end
  else seg :: stack.

Definition normalizeString (p : string) (allowAboveRoot : bool) : string :=
  Js.join (rev (fold_left (segment allowAboveRoot) (Js.split p "/") [])) "/".

Definition normalize (p : string) : string :=
  match p with
  | EmptyString => "."
  | String _ _ =>
      let absolute := isAbsolute p in
      let trailingSeparator := endsWithSlash p in
      let res := normalizeString p (negb absolute) in
      match res with
      | EmptyString =>
          if absolute then "/" else if trailingSeparator then "./" else "."
      | String _ _ =>
          let res' := if trailingSeparator then res +:+ "/" else res in
          if absolute then "/" +:+ res' else res'
      end
  end.

(** [path.join(a, b)]: arguments of length zero are left out. *)
Definition join (a b : string) : string :=
  match a, b with
  | EmptyString, EmptyString => "."
  | EmptyString, _ => normalize b
  | _, EmptyString => normalize a
  | _, _ => normalize (a +:+ "/" +:+ b)
  end.

End Path.

(** [JSON.stringify] on strings and on arrays of strings. *)
Module Json.

Definition quote : ascii := "034"%char.

Definition hexDigit (n : N) : ascii :=
  ascii_of_N (if (n <? 10)%N then 48 + n else 87 + n).

(** One code unit inside a quoted JSON string. *)
Definition escape (c : ascii) : string :=
  let n := N_of_ascii c in
  if (n =? 8)%N then "\b"
  else if (n =? 9)%N then "\t"
  else if (n =? 10)%N then "\n"
  else if (n =? 12)%N then "\f"
  else if (n =? 13)%N then "\r"
  else if (n =? 34)%N then String "\" (String quote EmptyString)
  else if (n =? 92)%N then "\\"
  else if (n <? 32)%N then
    "\u00" +:+ String (hexDigit (n / 16)) (String (hexDigit (n mod 16)) "")
  else String c EmptyString.

Fixpoint escapeAll (s : string) : string :=
  match s with
  | EmptyString => EmptyString
  | String c s' => escape c +:+ escapeAll s'
  end.

Definition quoteString (s : string) : string :=
  String quote (escapeAll s +:+ String quote EmptyString).

(** [JSON.stringify(array)] for an array of strings. *)
Definition stringifyStrings (l : list string) : string :=
  "[" +:+ Js.join (map quoteString l) "," +:+ "]".

(** Reading JSON text back, as [JSON.parse] does on text without white
    space: the value of a hexadecimal digit. *)
Definition hexValue (c : ascii) : option N :=
  let n := N_of_ascii c in
  if (48 <=? n)%N && (n <=? 57)%N then Some (n - 48)%N
  else if (97 <=? n)%N && (n <=? 102)%N then Some (n - 87)%N
  else if (65 <=? n)%N && (n <=? 70)%N then Some (n - 55)%N
  else None.

Definition prepend (c : ascii) (r : option (string * string))
    : option (string * string) :=
  match r with
  | Some (text, rest) => Some (String c text, rest)
  | None => None
  end.

(** The characters of a JSON string, read from behind its opening quote up
    to its closing quote: the text they stand for and what follows the
    closing quote.  A raw control character and an escape that is not one
    of JSON's are refused, and so is a code unit from 256 on, which a
    [string] cannot hold. *)
Fixpoint parseChars (s : string) : option (string * string) :=
  match s with
  | EmptyString => None
  | String c s' =>
      if Ascii.eqb c quote then Some (EmptyString, s')
      else if Ascii.eqb c "\" then
        match s' with
        | EmptyString => None
        | String e s'' =>
            if Ascii.eqb e quote then prepend quote (parseChars s'')
            else if Ascii.eqb e "\" then prepend "\" (parseChars s'')
            else if Ascii.eqb e "/" then prepend "/" (parseChars s'')
            else if Ascii.eqb e "b" then prepend "008" (parseChars s'')
            else if Ascii.eqb e "t" then prepend "009" (parseChars s'')
            else if Ascii.eqb e "n" then prepend "010" (parseChars s'')
            else if Ascii.eqb e "f" then prepend "012" (parseChars s'')
            else if Ascii.eqb e "r" then prepend "013" (parseChars s'')
            else if Ascii.eqb e "u" then
              match s'' with
              | String h1 (String h2 (String h3 (String h4 s3))) =>
                  match hexValue h1, hexValue h2, hexValue h3, hexValue h4 with
                  | Some v1, Some v2, Some v3, Some v4 =>
                      let code := (4096 * v1 + 256 * v2 + 16 * v3 + v4)%N in
                      if (code <? 256)%N
                      then prepend (ascii_of_N code) (parseChars s3)
                      else None
                  | _, _, _, _ => None
                  end
              | _ => None
              end
            else None
        end
      else if (N_of_ascii c <? 32)%N then None
      else prepend c (parseChars s')
  end.

(** The elements of an array of strings, read from the opening quote of
    an element up to the closing bracket, which has to end the text;
    [n] bounds the number of elements. *)
Fixpoint parseElements (n : nat) (s : string) : option (list string) :=
  match n with
  | O => None
  | S n' =>
      match s with
      | EmptyString => None
      | String q s' =>
          if Ascii.eqb q quote then
            match parseChars s' with
            | Some (text, String c rest) =>
                if Ascii.eqb c "," then
                  match parseElements n' rest with
                  | Some texts => Some (text :: texts)
                  | None => None
                  end
                else if Ascii.eqb c "]" then
                  match rest with
                  | EmptyString => Some [text]
                  | String _ _ => None
                  end
                else None
            | _ => None
            end
          else None
      end
  end.

(** [JSON.parse(text)] for the text of an array of strings; [None] for any
    other text. *)
Definition parseStrings (s : string) : option (list string) :=
  match s with
  | String b s' =>
      if Ascii.eqb b "[" then
        match s' with
        | String e EmptyString =>
            if Ascii.eqb e "]" then Some [] else None
        | _ => parseElements (String.length s') s'
        end
      else None
  | EmptyString => None
  end.

End Json.

(** ** findFiles *)

Section FindFiles.

(** [process.cwd()]. *)
Variable cwd : string.

(** The [glob] function of the package of that name, which is not part of
    the repository: called on a pattern and on the [ignore] option, it
    resolves to the paths it matched, relative to the working directory,
    or rejects. *)
Variable glob : string -> string -> Completion (list string).

(** [findFiles({ pattern })]. *)
Definition findFiles (pattern : string) : string :=
  match glob pattern "node_modules/**" with
  | Normal files =>
      let files' := map (fun file => Path.join cwd file) files in
      Json.stringifyStrings files'
  | Throw message => "Error finding files: " +:+ message
  end.

End FindFiles.

(** Modelled from the spec: the [glob] package that [findFiles] calls is
    not part of the repository.  The spec has [findFiles] expand a glob
    pattern against the working tree, leaving out the dependency
    directory, and give the matching files in order.  The model: the
    working tree is the list of its files, each a path relative to the
    working directory; a pattern is matched segment by segment, [?]
    standing for one character, [*] for any number of them and the segment
    [**] for any number of segments; a segment of the file that starts
    with a dot is matched only by a segment of the pattern that starts with
    a dot, unless [dot] is set, as it is for the [ignore] option; the files
    that match the pattern and not the [ignore] pattern are returned in the
    order of the tree. *)
Module Tree.

Definition startsWithDot (s : string) : bool :=
  match s with
  | String c _ => Ascii.eqb c "."
  | EmptyString => false
  end.

Fixpoint wildcard (p : string) : string -> bool :=
  match p with
  | EmptyString =>
      fun s => match s with EmptyString => true | _ => false end
  | String c p' =>
      if Ascii.eqb c "*" then
        fix star (s : string) : bool :=
          wildcard p' s
          || match s with
             | EmptyString => false
             | String _ s' => star s'
             end
      else
        fun s =>
          match s with
          | EmptyString => false
          | String d s' => (Ascii.eqb c "?" || Ascii.eqb c d) && wildcard p' s'
          end
  end.

(** One segment of a file against one segment of a pattern. *)
Definition segment (dot : bool) (p s : string) : bool :=
  (dot || negb (startsWithDot s) || startsWithDot p) && wildcard p s.

Fixpoint segments (dot : bool) (ps : list string) : list string -> bool :=
  match ps with
  | [] => fun ss => match ss with [] => true | _ => false end
  | p :: ps' =>
      if String.eqb p "**" then
        fix star (ss : list string) : bool :=
          segments dot ps' ss
          || match ss with
             | [] => false
             | s :: ss' => (dot || negb (startsWithDot s)) && star ss'
             end
      else
        fun ss =>
          match ss with
          | [] => false
          | s :: ss' => segment dot p s && segments dot ps' ss'
          end
  end.

Definition matches (dot : bool) (pattern file : string) : bool :=
  segments dot (Js.split pattern "/") (Js.split file "/").

(** Modelled from the spec: [glob(pattern, { ignore })] on the working tree
    [tree]: the files that match the pattern and not the [ignore] pattern,
    in the order of the tree; it does not reject. *)
Definition glob (tree : list string) (pattern ignore : string)
    : Completion (list string) :=
  Normal (List.filter
            (fun file =>
               matches false pattern file && negb (matches true ignore file))
            tree).

End Tree.

(** A file of the dependency directory: the first segment of its path is
    [node_modules]. *)
Definition underNodeModules (file : string) : bool :=
  match Js.split file "/" with
  | first :: _ => String.eqb first "node_modules"
  | [] => false
  end.

(** A pattern segment with no wildcard in it. *)
Fixpoint literalSegment (p : string) : bool :=
  match p with
  | EmptyString => true
  | String c p' =>
      negb (Ascii.eqb c "*") && negb (Ascii.eqb c "?") && literalSegment p'
  end.

(** ** searchFileContents *)

(** What a child process leaves when it ends. *)
Record ProcessResult := {
  exitCode : Z;
  stdout : string;
  stderr : string;
}.

Section Search.

(** The shell that [exec] of [node:child_process] starts: which result
    the command line ends with. *)
Variable shell : string -> ProcessResult.

(** The default [maxBuffer] of [exec]: 1024 * 1024. *)
Definition maxBuffer : Z := 1048576.

(** The length of a text in bytes of UTF-8, which is what [exec] counts:
    one byte for a code unit below 128 and two for the others that a
    [string] holds. *)
Fixpoint utf8Length (s : string) : Z :=
  match s with
  | EmptyString => 0
  | String c s' =>
      ((if (N_of_ascii c <? 128)%N then 1 else 2) + utf8Length s')%Z
  end.

Definition exceedsBuffer (output : string) : bool :=
  (maxBuffer <? utf8Length output)%Z.

(** [execAsync(command)], the promisified [exec]: it rejects when an
    output grows larger than [maxBuffer] (the standard output is looked at
    first); otherwise it resolves to the two outputs when the command exits
    with status 0 and rejects when it does not, the error message made of
    the command line and of the error output. *)
Definition execAsync (command : string) : Completion (string * string) :=
  let r := shell command in
  if exceedsBuffer (stdout r) then Throw "stdout maxBuffer length exceeded"
  else if exceedsBuffer (stderr r) then Throw "stderr maxBuffer length exceeded"
  else if (exitCode r =? 0)%Z then Normal (stdout r, stderr r)
  else Throw ("Command failed: " +:+ command +:+ LF +:+ stderr r).

(** [executeCommand(command)]: the pair of [data] and [errorCode], [None]
    for [null]. *)
Definition executeCommand (command : string)
    : option string * option string :=
  match execAsync command with
  | Normal (out, err) =>
      if Js.truthy err && negb (Js.truthy out) then (None, Some err)
      else (Some out, None)
  | Throw message => (None, Some message)
  end.

(** Truthiness of a string or [null]. *)
Definition truthyOpt (v : option string) : bool :=
  match v with Some s => Js.truthy s | None => false end.

Definition grepCommand (pattern searchPath : string)
    (globPattern : option string) (caseInsensitive : bool) : string :=
  let flags := "-rn" +:+ (if caseInsensitive then "i" else "") in
  let includeFlag :=
    if truthyOpt globPattern
    then "--include=" +:+ String Json.quote (default "" globPattern)
                      +:+ String Json.quote ""
    else "" in
  "grep " +:+ flags +:+ " " +:+ includeFlag +:+ " "
    +:+ String Json.quote pattern +:+ String Json.quote " "
    +:+ String Json.quote searchPath +:+ String Json.quote "".

(** [searchFileContents({ pattern, searchPath = ".", globPattern,
    caseInsensitive })]; [data.trim()] throws when [data] is [null]. *)
Definition searchFileContents (pattern searchPath : string)
    (globPattern : option string) (caseInsensitive : bool)
    : Completion string :=
  let command := grepCommand pattern searchPath globPattern caseInsensitive in
  let '(data, errorCode) := executeCommand command in
  if truthyOpt errorCode && negb (truthyOpt data) then
    Normal "No matches found."
  else
    match data with
    | Some text => Normal (Js.trim text)
    | None => Throw "Cannot read properties of null (reading 'trim')"
    end.

End Search.

(** ** Messages, tool calls and the tool registry *)

(** A JSON value; the arguments of a tool call are a JSON object, kept as
    the list of its members. *)
#[warnings="-register-all"]
Inductive JsonValue : Type :=
  | JNull
  | JBool (b : bool)
  | JNumber (n : Z)
  | JString (s : string)
  | JArray (items : list JsonValue)
  | JObject (members : list (string * JsonValue)).

Definition Args : Type := list (string * JsonValue).

(** [{ function: { name, arguments } }]. *)
Record ToolCall := {
  function_name : string;
  function_arguments : Args;
}.

Inductive Role := System | User | Assistant | Tool.

(** What a tool hands back and a message holds as its content: text, or,
    for one inherited member of the registry object, the arguments
    themselves. *)
Inductive Value : Type :=
  | Text (s : string)
  | Object (members : Args).

(** A message of the history; [None] stands for a member left
    [undefined]. *)
Record Message := {
  role : Role;
  content : Value;
  tool_calls : option (list ToolCall);
  name : option string;
}.

(** One part of a streamed reply: [part.message.content] and
    [part.message.tool_calls]. *)
Record Fragment := {
  part_content : string;
  part_tool_calls : option (list ToolCall);
}.

(** A parameter of a tool descriptor and the descriptor itself. *)
Record ParameterSchema := {
  parameter : string;
  parameter_type : string;
  parameter_description : string;
}.

Record ToolDescriptor := {
  tool_name : string;
  tool_description : string;
  required : list string;
  properties : list ParameterSchema;
}.

(** The constant [tools]. *)
Definition tools : list ToolDescriptor := [
  {| tool_name := "findFiles";
     tool_description := "Find files in the project matching a pattern";
     required := ["pattern"];
     properties := [
       {| parameter := "pattern"; parameter_type := "string";
          parameter_description :=
            "The glob pattern to search for (e.g. " +:+ String Json.quote "**/*.js"
              +:+ String Json.quote ")" |} ] |};
  {| tool_name := "searchFileContents";
     tool_description := "Search for text patterns within files";
     required := ["pattern"];
     properties := [
       {| parameter := "pattern"; parameter_type := "string";
          parameter_description := "The text or regex pattern to search for" |};
       {| parameter := "searchPath"; parameter_type := "string";
          parameter_description :=
            "The directory to search in (default: " +:+ String Json.quote "."
              +:+ String Json.quote ")" |};
       {| parameter := "globPattern"; parameter_type := "string";
          parameter_description :=
            "File pattern to include (e.g. " +:+ String Json.quote "*.js"
              +:+ String Json.quote ")" |};
       {| parameter := "caseInsensitive"; parameter_type := "boolean";
          parameter_description := "Whether to ignore case" |} ] |};
  {| tool_name := "readFile";
     tool_description := "Read the contents of a file";
     required := ["filePath"];
     properties := [
       {| parameter := "filePath"; parameter_type := "string";
          parameter_description := "The path to the file" |};
       {| parameter := "offset"; parameter_type := "integer";
          parameter_description :=
            "Line number to start reading from (default: 1)" |};
       {| parameter := "limit"; parameter_type := "integer";
          parameter_description := "Number of lines to read (default: 2000)" |} ] |};
  {| tool_name := "createFile";
     tool_description := "Create a new file with content";
     required := ["filePath"; "content"];
     properties := [
       {| parameter := "filePath"; parameter_type := "string";
          parameter_description := "The path for the new file" |};
       {| parameter := "content"; parameter_type := "string";
          parameter_description := "The content to write to the file" |} ] |};
  {| tool_name := "editFile";
     tool_description := "Edit a file by replacing text";
     required := ["filePath"; "oldString"; "newString"];
     properties := [
       {| parameter := "filePath"; parameter_type := "string";
          parameter_description := "The path to the file" |};
       {| parameter := "oldString"; parameter_type := "string";
          parameter_description := "The existing text to be replaced" |};
       {| parameter := "newString"; parameter_type := "string";
          parameter_description := "The new text to replace with" |};
       {| parameter := "replaceAll"; parameter_type := "boolean";
          parameter_description := "Whether to replace all occurrences" |} ] |}
].

(** The five functions the object literal [availableTools] holds. *)
Inductive OwnTool := FindFiles | SearchFileContents | ReadFile | CreateFile | EditFile.

(** What the object inherits from [Object.prototype]: every name below is
    found by [availableTools[functionName]] as well. *)
Inductive Inherited :=
  | ObjectConstructor      (* constructor: the function Object *)
  | ObjectToString         (* toString *)
  | ObjectPrototype        (* __proto__: the prototype object, not a function *)
  | ObjectMethod.          (* the methods that need an object as [this] *)

Inductive Property :=
  | Own (t : OwnTool)
  | FromPrototype (m : Inherited).

Definition ownTool (functionName : string) : option OwnTool :=
  if String.eqb functionName "findFiles" then Some FindFiles
  else if String.eqb functionName "searchFileContents" then Some SearchFileContents
  else if String.eqb functionName "readFile" then Some ReadFile
  else if String.eqb functionName "createFile" then Some CreateFile
  else if String.eqb functionName "editFile" then Some EditFile
  else None.

Definition objectMethods : list string :=
  [ "__defineGetter__"; "__defineSetter__"; "hasOwnProperty";
    "__lookupGetter__"; "__lookupSetter__"; "isPrototypeOf";
    "propertyIsEnumerable"; "valueOf"; "toLocaleString" ].

Definition inherited (functionName : string) : option Inherited :=
  if String.eqb functionName "constructor" then Some ObjectConstructor
  else if String.eqb functionName "toString" then Some ObjectToString
  else if String.eqb functionName "__proto__" then Some ObjectPrototype
  else if existsb (String.eqb functionName) objectMethods then Some ObjectMethod
  else None.

(** [availableTools[functionName]]: the object's own members first, then
    those of its prototype; [None] is [undefined].  Every member found is
    truthy. *)
Definition availableTools (functionName : string) : option Property :=
  match ownTool functionName with
  | Some t => Some (Own t)
  | None =>
      match inherited functionName with
      | Some m => Some (FromPrototype m)
      | None => None
      end
  end.

(** ** The conversation state and the model backend *)

(** What the agent writes on the terminal. *)
Inductive Output : Type :=
  | Prompt                                   (* the question "You: " *)
  | AgentLabel                               (* "Agent: " *)
  | Chunk (text : string)                    (* a text delta, as it arrives *)
  | Newline
  | ToolTrace (functionName : string) (functionArgs : Args)
  | AgentLine (response : string).           (* "Agent: " and the whole reply *)

(** A request to the backend: the history sent, the [stream] flag and the
    tool descriptors, [None] when the request has no [tools] member. *)
Record Request := {
  request_messages : list Message;
  request_stream : bool;
  request_tools : option (list ToolDescriptor);
}.

(** A streamed turn of the backend: the parts of a reply that completes,
    or the parts that arrived before the call or the stream failed. *)
Inductive StreamReply : Type :=
  | Stream (parts : list Fragment)
  | StreamFailure (parts : list Fragment) (message : string).

(** A turn of the backend asked without streaming: the HTTP response with
    [response.ok], [response.statusText] and [data.message.content], or a
    request that failed. *)
Inductive FetchReply : Type :=
  | Response (ok : bool) (statusText : string) (message_content : string)
  | FetchFailure (message : string).

(** Where a run of the loop stands when the inputs given to it are used
    up (before the next question to the user, or before the next call to
    the backend), or the error it ended with. *)
Inductive Control : Type :=
  | AwaitingUser
  | AwaitingModel
  | Failed (message : string).

Section Agent.

(** What the tools act on. *)
Variable World : Type.

(** The global [messages], the world of the tools, the terminal output
    and the requests sent, the last two with the latest first. *)
Record State := {
  messages : list Message;
  world : World;
  terminal : list Output;
  requests : list Request;
}.

Definition push (m : Message) (st : State) : State :=
  {| messages := messages st ++ [m]; world := world st;
     terminal := terminal st; requests := requests st |}.

Definition write (o : Output) (st : State) : State :=
  {| messages := messages st; world := world st;
     terminal := o :: terminal st; requests := requests st |}.

Definition send (r : Request) (st : State) : State :=
  {| messages := messages st; world := world st;
     terminal := terminal st; requests := r :: requests st |}.

Definition setWorld (w : World) (st : State) : State :=
  {| messages := messages st; world := w;
     terminal := terminal st; requests := requests st |}.

(** *** The tool-augmented streaming agent *)

(** The five tool functions: called on the arguments of a call, each
    fulfils with a text or rejects, and may change the world. *)
Variable implementation : OwnTool -> Args -> World -> Completion string * World.

(** The message of the [TypeError] the engine throws when an inherited
    member is called as a plain function. *)
Variable typeError : string -> Args -> string.

(** The body of the [for await] loop of [callAgent]: the state is the
    text so far, the batch so far and the terminal. *)
Definition consume (acc : string * list ToolCall * State) (part : Fragment)
    : string * list ToolCall * State :=
  let '(fullResponse, toolCalls, st) := acc in
  let st := write (Chunk (part_content part)) st in
  let fullResponse := fullResponse +:+ part_content part in
  match part_tool_calls part with
  | Some batch => (fullResponse, batch, st)
  | None => (fullResponse, toolCalls, st)
  end.

(** [toolCalls.length ? toolCalls : undefined]. *)
Definition batchOrUndefined (toolCalls : list ToolCall)
    : option (list ToolCall) :=
  match toolCalls with [] => None | _ :: _ => Some toolCalls end.

Definition assistantMessage (fullResponse : string)
    (toolCalls : list ToolCall) : Message :=
  {| role := Assistant; content := Text fullResponse;
     tool_calls := batchOrUndefined toolCalls; name := None |}.

(** [callAgent(messages)] on one turn of the backend. *)
Definition callAgent (reply : StreamReply) (st : State)
    : Completion (list ToolCall) * State :=
  let st := write AgentLabel st in
  let st := send {| request_messages := messages st; request_stream := true;
                    request_tools := Some tools |} st in
  match reply with
  | Stream parts =>
      let '(fullResponse, toolCalls, st) :=
        fold_left consume parts ("", [], st) in
      let st := write Newline st in
      let st := push (assistantMessage fullResponse toolCalls) st in
      (Normal toolCalls, st)
  | StreamFailure parts message =>
      let '(_, _, st) := fold_left consume parts ("", [], st) in
      (Throw message, st)
  end.

(** [tool(functionArgs)] for a member found in the registry. *)
Definition call (functionName : string) (tool : Property)
    (functionArgs : Args) (w : World) : Completion Value * World :=
  match tool with
  | Own t =>
      match implementation t functionArgs w with
      | (Normal text, w') => (Normal (Text text), w')
      | (Throw message, w') => (Throw message, w')
      end
  | FromPrototype ObjectConstructor => (Normal (Object functionArgs), w)
  | FromPrototype ObjectToString => (Normal (Text "[object Undefined]"), w)
  | FromPrototype ObjectPrototype =>
      (Throw (typeError functionName functionArgs), w)
  | FromPrototype ObjectMethod =>
      (Throw (typeError functionName functionArgs), w)
  end.

(** [executeTool(toolCall)]. *)
Definition executeTool (toolCall : ToolCall) (st : State) : Value * State :=
  let functionName := function_name toolCall in
  let functionArgs := function_arguments toolCall in
  let st := write (ToolTrace functionName functionArgs) st in
  match availableTools functionName with
  | None => (Text ("Error: Tool " +:+ functionName +:+ " not found."), st)
  | Some tool =>
      match call functionName tool functionArgs (world st) with
      | (Normal result, w) => (result, setWorld w st)
      | (Throw message, w) =>
          (Text ("Error executing " +:+ functionName +:+ ": " +:+ message),
           setWorld w st)
      end
  end.

Definition toolMessage (toolCall : ToolCall) (result : Value) : Message :=
  {| role := Tool; content := result; tool_calls := None;
     name := Some (function_name toolCall) |}.

(** The [for (const toolCall of toolCalls)] loop of [chat]. *)
Fixpoint executeAll (toolCalls : list ToolCall) (st : State) : State :=
  match toolCalls with
  | [] => st
  | toolCall :: rest =>
      let '(result, st) := executeTool toolCall st in
      executeAll rest (push (toolMessage toolCall result) st)
  end.

(** The inner [while (true)] of [chat], run on the turns the backend
    gives; what it returns with [AwaitingUser] is the [break]. *)
Fixpoint converse (replies : list StreamReply) (st : State)
    : Control * list StreamReply * State :=
  match replies with
  | [] => (AwaitingModel, [], st)
  | reply :: replies' =>
      match callAgent reply st with
      | (Throw message, st) => (Failed message, replies', st)
      | (Normal [], st) => (AwaitingUser, replies', st)
      | (Normal (toolCall :: rest), st) =>
          converse replies' (executeAll (toolCall :: rest) st)
      end
  end.

Definition userMessage (userInput : string) : Message :=
  {| role := User; content := Text userInput; tool_calls := None;
     name := None |}.

(** [chat()], run on the lines the user types and the turns the backend
    gives. *)
Fixpoint chat (inputs : list string) (replies : list StreamReply)
    (st : State) : Control * State :=
  match inputs with
  | [] => (AwaitingUser, write Prompt st)
  | userInput :: inputs' =>
      let st := write Prompt st in
      let st := push (userMessage userInput) st in
      match converse replies st with
      | (AwaitingUser, replies', st) => chat inputs' replies' st
      | (control, _, st) => (control, st)
      end
  end.

(** *** The plain streaming agent *)

Definition plainMessage (r : Role) (text : string) : Message :=
  {| role := r; content := Text text; tool_calls := None; name := None |}.

Definition consumePlain (acc : string * State) (part : Fragment)
    : string * State :=
  let '(fullResponse, st) := acc in
  (fullResponse +:+ part_content part, write (Chunk (part_content part)) st).

Fixpoint chatPlain (inputs : list string) (replies : list StreamReply)
    (st : State) : Control * State :=
  match inputs with
  | [] => (AwaitingUser, write Prompt st)
  | userInput :: inputs' =>
      let st := write Prompt st in
      let st := push (plainMessage User userInput) st in
      match replies with
      | [] => (AwaitingModel, st)
      | reply :: replies' =>
          let st := write AgentLabel st in
          let st := send {| request_messages := messages st;
                            request_stream := true;
                            request_tools := None |} st in
          match reply with
          | Stream parts =>
              let '(fullResponse, st) := fold_left consumePlain parts ("", st) in
              let st := write Newline st in
              let st := push (plainMessage Assistant fullResponse) st in
              chatPlain inputs' replies' st
          | StreamFailure parts message =>
              let '(_, st) := fold_left consumePlain parts ("", st) in
              (Failed message, st)
          end
      end
  end.

(** *** The non-streaming agent *)

(** [callChat(messages)]. *)
Definition callChat (reply : FetchReply) (st : State)
    : Completion string * State :=
  let st := send {| request_messages := messages st;
                    request_stream := false;
                    request_tools := None |} st in
  match reply with
  | Response ok statusText message_content =>
      if negb ok then (Throw ("Ollama API Error: " +:+ statusText), st)
      else (Normal message_content, st)
  | FetchFailure message => (Throw message, st)
  end.

Fixpoint chatNoStream (inputs : list string) (replies : list FetchReply)
    (st : State) : Control * State :=
  match inputs with
  | [] => (AwaitingUser, write Prompt st)
  | userInput :: inputs' =>
      let st := write Prompt st in
      let st := push (plainMessage User userInput) st in
      match replies with
      | [] => (AwaitingModel, st)
      | reply :: replies' =>
          match callChat reply st with
          | (Normal response, st) =>
              let st := push (plainMessage Assistant response) st in
              let st := write (AgentLine response) st in
              chatNoStream inputs' replies' st
          | (Throw message, st) => (Failed message, st)
          end
      end
  end.

End Agent.

Arguments messages {World} _.
Arguments world {World} _.
Arguments terminal {World} _.
Arguments requests {World} _.
Arguments push {World} _ _.
Arguments write {World} _ _.
Arguments send {World} _ _.

(** The text deltas of a reply, put together in the order of arrival. *)
Definition fullText (parts : list Fragment) : string :=
  String.concat "" (map part_content parts).

(** The batches the parts of a reply carry, in the order of arrival. *)
Definition batches (parts : list Fragment) : list (list ToolCall) :=
  omap part_tool_calls parts.

(** The last batch carried by a part, empty when no part carried one. *)
Definition lastBatch (parts : list Fragment) : list ToolCall :=
  default [] (last (batches parts)).

Definition nonEmpty {A : Type} (l : list A) : bool :=
  match l with [] => false | _ :: _ => true end.

(** The last non-empty batch carried by a part, empty when there is
    none. *)
Definition lastNonEmptyBatch (parts : list Fragment) : list ToolCall :=
  default [] (last (List.filter nonEmpty (batches parts))).

(** ** The tools over the file system *)

Definition member (key : string) (functionArgs : Args) : option JsonValue :=
  snd <$> List.find (fun kv => String.eqb (fst kv) key) functionArgs.

(** A call whose arguments fit the schema of its tool. *)
Inductive TypedCall : Type :=
  | CallFindFiles (pattern : string)
  | CallSearchFileContents (pattern searchPath : string)
      (globPattern : option string) (caseInsensitive : bool)
  | CallReadFile (filePath : string) (offset limit : Z)
  | CallCreateFile (filePath content : string)
  | CallEditFile (filePath oldString newString : string) (replaceAll : bool).

Definition requiredString (key : string) (functionArgs : Args) : option string :=
  match member key functionArgs with
  | Some (JString s) => Some s
  | _ => None
  end.

(** An optional member: left out ([Some None]), of the declared kind, or
    of another kind ([None]). *)
Definition optionalString (key : string) (functionArgs : Args)
    : option (option string) :=
  match member key functionArgs with
  | None => Some None
  | Some (JString s) => Some (Some s)
  | Some _ => None
  end.

Definition optionalBool (key : string) (functionArgs : Args)
    : option (option bool) :=
  match member key functionArgs with
  | None => Some None
  | Some (JBool b) => Some (Some b)
  | Some _ => None
  end.

Definition optionalInteger (key : string) (functionArgs : Args)
    : option (option Z) :=
  match member key functionArgs with
  | None => Some None
  | Some (JNumber n) => Some (Some n)
  | Some _ => None
  end.

(** The destructuring of the arguments, defaults included, when they fit
    the schema. *)
Definition typed (t : OwnTool) (functionArgs : Args) : option TypedCall :=
  match t with
  | FindFiles =>
      pattern ← requiredString "pattern" functionArgs;
      Some (CallFindFiles pattern)
  | SearchFileContents =>
      pattern ← requiredString "pattern" functionArgs;
      searchPath ← optionalString "searchPath" functionArgs;
      globPattern ← optionalString "globPattern" functionArgs;
      caseInsensitive ← optionalBool "caseInsensitive" functionArgs;
      Some (CallSearchFileContents pattern (default "." searchPath)
              globPattern (default false caseInsensitive))
  | ReadFile =>
      filePath ← requiredString "filePath" functionArgs;
      offset ← optionalInteger "offset" functionArgs;
      limit ← optionalInteger "limit" functionArgs;
      Some (CallReadFile filePath (default 1%Z offset) (default 2000%Z limit))
  | CreateFile =>
      filePath ← requiredString "filePath" functionArgs;
      content ← requiredString "content" functionArgs;
      Some (CallCreateFile filePath content)
  | EditFile =>
      filePath ← requiredString "filePath" functionArgs;
      oldString ← requiredString "oldString" functionArgs;
      newString ← requiredString "newString" functionArgs;
      replaceAll ← optionalBool "replaceAll" functionArgs;
      Some (CallEditFile filePath oldString newString (default false replaceAll))
  end.

Section FileTools.

Variable cwd : string.
(** [glob] and the shell see the files of the moment. *)
Variable glob : Fs.Disk -> string -> string -> Completion (list string).
Variable shell : Fs.Disk -> string -> ProcessResult.
(** What a tool does with arguments that do not fit its schema. *)
Variable untyped : OwnTool -> Args -> Fs.Disk -> Completion string * Fs.Disk.

Definition run (c : TypedCall) (disk : Fs.Disk) : Completion string * Fs.Disk :=
  match c with
  | CallFindFiles pattern => (Normal (findFiles cwd (glob disk) pattern), disk)
  | CallSearchFileContents pattern searchPath globPattern caseInsensitive =>
      (searchFileContents (shell disk) pattern searchPath globPattern
         caseInsensitive, disk)
  | CallReadFile filePath offset limit =>
      (Normal (readFile filePath offset limit disk), disk)
  | CallCreateFile filePath content =>
      let '(text, disk') := createFile filePath content disk in
      (Normal text, disk')
  | CallEditFile filePath oldString newString replaceAll =>
      let '(text, disk') :=
        editFile filePath oldString newString replaceAll disk in
      (Normal text, disk')
  end.

(** The five tools as the registry calls them. *)
Definition fileTools (t : OwnTool) (functionArgs : Args) (disk : Fs.Disk)
    : Completion string * Fs.Disk :=
  match typed t functionArgs with
  | Some c => run c disk
  | None => untyped t functionArgs disk
  end.

End FileTools.

(** ** Where the three agents start *)

Definition systemPrompt : string := "
      Core Identity: You are an interactive CLI tool that helps with software engineering tasks.

      Key Guidelines:
      - Concise communication: Short, direct responses formatted in GitHub-flavored markdown
      - Professional objectivity: Prioritize technical accuracy over validation; correct mistakes directly
      - Minimal emoji use: Only when explicitly requested
      - Tool preference: Use specialized tools over bash commands for file operations

      Coding Approach:
      - Always read code before modifying it
      - Avoid over-engineering - only make requested changes
      - Don't add unnecessary abstractions, comments, or features
      - Watch for security vulnerabilities (XSS, SQL injection, etc.)
      - Delete unused code completely rather than commenting it out
    ".

(** The tool-augmented agent starts from the system prompt, the other two
    from an empty history. *)
Definition initialMessages : list Message :=
  [ {| role := System; content := Text systemPrompt; tool_calls := None;
       name := None |} ].

Definition start {World : Type} (history : list Message) (w : World)
    : State World :=
  {| messages := history; world := w; terminal := []; requests := [] |}.

(** ** The shape of a history *)

(** One pass over a history: [pending] holds the calls of the latest
    assistant message that no tool message has answered yet; a tool message
    has to answer the first of them, under its name.  [None] when some
    tool message answers no call. *)
Fixpoint scan (pending : list ToolCall) (history : list Message)
    : option (list ToolCall) :=
  match history with
  | [] => Some pending
  | m :: rest =>
      match role m with
      | Tool =>
          match pending with
          | c :: pending' =>
              if bool_decide (name m = Some (function_name c))
              then scan pending' rest else None
          | [] => None
          end
      | Assistant => scan (default [] (tool_calls m)) rest
      | System | User => scan [] rest
      end
  end.

Definition wellFormed (history : list Message) : bool :=
  match scan [] history with Some _ => true | None => false end.

(** Every tool message comes after an assistant message that declared a
    call of the tool it names. *)
Definition toolFollowsAssistant (history : list Message) : Prop :=
  forall (i : nat) (m : Message),
    history !! i = Some m -> role m = Tool ->
    exists (j : nat) (a : Message) (calls : list ToolCall) (c : ToolCall),
      j < i /\ history !! j = Some a /\ role a = Assistant
      /\ tool_calls a = Some calls /\ c ∈ calls
      /\ name m = Some (function_name c).

(** What the loop of the tool-augmented agent appends: user messages, and
    assistant messages each followed by one tool message for each of its
    calls, in the order of the calls. *)
Inductive Appended : list Message -> Prop :=
  | appended_nil : Appended []
  | appended_user (userInput : string) (rest : list Message) :
      Appended rest -> Appended (userMessage userInput :: rest)
  | appended_turn (text : string) (calls : list ToolCall)
      (results : list Value) (rest : list Message) :
      length results = length calls ->
      Appended rest ->
      Appended (assistantMessage text calls
                  :: zip_with toolMessage calls results ++ rest).

(** ** The reply of a turn, streamed or whole *)

(** The same turn of the backend asked without streaming: the whole text in
    one response, or the failure. *)
Definition oneShot (reply : StreamReply) : FetchReply :=
  match reply with
  | Stream parts => Response true "OK" (fullText parts)
  | StreamFailure _ message => FetchFailure message
  end.

(** A turn that asks for no tool. *)
Definition asksNoTool (reply : StreamReply) : Prop :=
  match reply with
  | Stream parts => lastBatch parts = []
  | StreamFailure _ _ => True
  end.

(** ** A scenario: an edit that fails and is tried again *)

Module Scenario.

(** The tools over a file system, with the matcher above for [glob] and a
    search that finds nothing.  The calls of the scenario all fit the
    schema of their tool; a call that does not is answered with a fixed
    text. *)
Definition implementation
    : OwnTool -> Args -> Fs.Disk -> Completion string * Fs.Disk :=
  fileTools "/work"
    (fun disk => Tree.glob (map fst (map_to_list (Fs.files disk))))
    (fun _ _ => {| exitCode := 1; stdout := ""; stderr := "" |})
    (fun _ _ disk => (Normal "Error: arguments outside the schema", disk)).

Definition typeError (functionName : string) (functionArgs : Args)
    : string :=
  "tool is not a function".

Definition project : Fs.Disk := Fs.holding "readme.md" "# Project".

Definition firstTry : ToolCall :=
  {| function_name := "editFile";
     function_arguments :=
       [ ("filePath", JString "readme.md");
         ("oldString", JString "## Usage");
         ("newString", JString "## Usage TODO") ] |}.

Definition secondTry : ToolCall :=
  {| function_name := "editFile";
     function_arguments :=
       [ ("filePath", JString "readme.md");
         ("oldString", JString "# Project");
         ("newString", JString "# Project TODO") ] |}.

Definition firstTurn : list Fragment :=
  [ {| part_content := "I will "; part_tool_calls := None |};
    {| part_content := "edit it."; part_tool_calls := Some [firstTry] |} ].

Definition turns : list StreamReply :=
  [ Stream firstTurn;
    Stream [ {| part_content := ""; part_tool_calls := Some [secondTry] |} ];
    Stream [ {| part_content := "Done."; part_tool_calls := None |} ] ].

Definition inputs : list string := [ "add a TODO to readme.md" ].

End Scenario.


(** ** Reading a history *)

(** A message of the user. *)
Definition isUser (m : Message) : bool :=
  match role m with User => true | _ => false end.

(** Every request sent so far carries a history that the present history
    starts with. *)
Definition requestsArePrefixes {World : Type} (st : State World) : Prop :=
  Forall (fun r => request_messages r `prefix_of` messages st) (requests st).
(** ** Facts about the string primitives *)

Lemma app_String (a : ascii) (s t : string) :
  String a s +:+ t = String a (s +:+ t).
Proof. reflexivity. Qed.

Lemma app_empty_l (s : string) : "" +:+ s = s.
Proof. reflexivity. Qed.

Lemma app_empty_r (s : string) : s +:+ "" = s.
Proof. induction s as [|a s IH]; [done|]. by rewrite app_String, IH. Qed.

Lemma app_assoc_s (s t u : string) : (s +:+ t) +:+ u = s +:+ t +:+ u.
Proof. induction s as [|a s IH]; [done|]. by rewrite !app_String, IH. Qed.

Lemma app_length_s (s t : string) :
  String.length (s +:+ t) = String.length s + String.length t.
Proof. induction s as [|a s IH]; [done|]. rewrite app_String. simpl. lia. Qed.

Lemma stripPrefix_Some (p s r : string) :
  Js.stripPrefix p s = Some r <-> s = p +:+ r.
Proof.
  revert s. induction p as [|a p IH]; intros s; simpl.
  - rewrite app_empty_l. split; congruence.
  - destruct s as [|b s]; [done|]. rewrite app_String.
    destruct (Ascii.eqb_spec a b) as [->|Hne].
    + rewrite IH. split; congruence.
    + split; [done|]. intros [=]. congruence.
Qed.

Lemma search_unfold (sub s : string) :
  Js.search sub s =
    match Js.stripPrefix sub s with
    | Some following => Some ("", following)
    | None =>
        match s with
        | "" => None
        | String c s' =>
            match Js.search sub s' with
            | Some (preceding, following) => Some (String c preceding, following)
            | None => None
            end
        end
    end.
Proof. by destruct s. Qed.

Lemma search_Some (sub s preceding following : string) :
  Js.search sub s = Some (preceding, following) ->
  s = preceding +:+ sub +:+ following.
Proof.
  revert preceding. induction s as [|c s IH]; intros preceding;
    rewrite search_unfold.
  - destruct (Js.stripPrefix sub "") eqn:E; [|done].
    intros [= <- <-]. by apply stripPrefix_Some in E.
  - destruct (Js.stripPrefix sub (String c s)) eqn:E.
    + intros [= <- <-]. by apply stripPrefix_Some in E.
    + destruct (Js.search sub s) as [[p f]|] eqn:E'; [|done].
      intros [= <- <-]. rewrite app_String. f_equal. by apply IH.
Qed.

(** No occurrence starts before the one [search] finds. *)
Lemma search_first (sub s preceding following : string) :
  Js.search sub s = Some (preceding, following) ->
  forall p f, s = p +:+ sub +:+ f -> String.length preceding <= String.length p.
Proof.
  revert preceding. induction s as [|c s IH]; intros preceding;
    rewrite search_unfold.
  - destruct (Js.stripPrefix sub "") eqn:E; [|done].
    intros [= <- <-] p f _. simpl. lia.
  - destruct (Js.stripPrefix sub (String c s)) eqn:E.
    + intros [= <- <-] p f _. simpl. lia.
    + destruct (Js.search sub s) as [[p0 f0]|] eqn:E'; [|done].
      intros [= <- <-] p f Hs. destruct p as [|c' p].
      * rewrite app_empty_l in Hs.
        apply stripPrefix_Some in Hs. congruence.
      * rewrite app_String in Hs. injection Hs as -> ->.
        simpl. specialize (IH p0 eq_refl p f eq_refl). lia.
Qed.

Lemma search_None (sub s : string) :
  Js.search sub s = None -> ~ occursIn sub s.
Proof.
  induction s as [|c s IH]; rewrite search_unfold.
  - destruct (Js.stripPrefix sub "") eqn:E; [done|].
    intros _ (p & f & Hs). destruct p as [|a p]; [|done].
    rewrite app_empty_l in Hs.
    apply stripPrefix_Some in Hs. congruence.
  - destruct (Js.stripPrefix sub (String c s)) eqn:E; [done|].
    destruct (Js.search sub s) as [[p0 f0]|] eqn:E'; [done|].
    intros _ (p & f & Hs). destruct p as [|a p].
    + rewrite app_empty_l in Hs.
      apply stripPrefix_Some in Hs. congruence.
    + rewrite app_String in Hs. injection Hs as -> ->.
      apply IH; [done|]. by exists p, f.
Qed.

(** [includes] decides verbatim occurrence. *)
Lemma includes_occursIn (s sub : string) :
  Js.includes s sub = true <-> occursIn sub s.
Proof.
  unfold Js.includes. destruct (Js.search sub s) as [[p f]|] eqn:E.
  - split; [|done]. intros _. exists p, f. by apply search_Some.
  - split; [done|]. intros H. by apply search_None in E.
Qed.

Lemma includes_false (s sub : string) :
  ~ occursIn sub s -> Js.includes s sub = false.
Proof.
  intros H. destruct (Js.includes s sub) eqn:E; [|done].
  by apply includes_occursIn in E.
Qed.

Lemma getSubstitution_dollarFree (matched preceding following template : string) :
  dollarFree template = true ->
  Js.getSubstitution matched preceding following template = template.
Proof.
  induction template as [|c t IH]; [done|]. simpl.
  destruct (Ascii.eqb c "$"); [done|]. simpl. intros H. by rewrite IH.
Qed.

Lemma replace_dollarFree (content oldString newString : string) :
  dollarFree newString = true ->
  Js.replace content oldString newString
  = replaceFirstLiterally content oldString newString.
Proof.
  intros H. unfold Js.replace, replaceFirstLiterally.
  destruct (Js.search oldString content) as [[p f]|]; [|done].
  by rewrite getSubstitution_dollarFree.
Qed.

(** What [replaceFirstLiterally] computes: the content is cut at the
    leftmost occurrence, and only that occurrence changes. *)
Lemma replaceFirstLiterally_spec (content oldString newString : string) :
  occursIn oldString content ->
  exists preceding following,
    content = preceding +:+ oldString +:+ following /\
    replaceFirstLiterally content oldString newString
      = preceding +:+ newString +:+ following /\
    forall p f, content = p +:+ oldString +:+ f ->
                String.length preceding <= String.length p.
Proof.
  intros Hin. unfold replaceFirstLiterally.
  destruct (Js.search oldString content) as [[p f]|] eqn:E.
  - exists p, f. split; [by apply search_Some|]. split; [done|].
    by apply (search_first _ _ _ f).
  - by apply search_None in E.
Qed.

(** The bound [splitAt] is given is enough: a larger one changes
    nothing. *)
Lemma splitAt_enough (a : ascii) (sep : string) (n m : nat) (s : string) :
  String.length s <= n -> String.length s <= m ->
  Js.splitAt n (String a sep) s = Js.splitAt m (String a sep) s.
Proof.
  revert m s. induction n as [|n IH]; intros m s Hn Hm.
  - destruct s; [|simpl in Hn; lia]. by destruct m.
  - destruct m as [|m].
    + destruct s; [|simpl in Hm; lia]. done.
    + simpl. destruct (Js.search (String a sep) s) as [[p f]|] eqn:E; [|done].
      f_equal. apply search_Some in E. subst s.
      rewrite !app_length_s in Hn, Hm. simpl in Hn, Hm.
      apply IH; lia.
Qed.

Lemma split_unfold (a : ascii) (sep s : string) :
  Js.split s (String a sep) =
    match Js.search (String a sep) s with
    | None => [s]
    | Some (preceding, following) =>
        preceding :: Js.split following (String a sep)
    end.
Proof.
  unfold Js.split. destruct s as [|c s]; [done|].
  change (String.length (String c s)) with (S (String.length s)).
  cbn [Js.splitAt].
  destruct (Js.search (String a sep) (String c s)) as [[p f]|] eqn:E; [|done].
  f_equal. apply search_Some in E.
  apply (f_equal String.length) in E. rewrite !app_length_s in E.
  simpl in E. apply splitAt_enough; lia.
Qed.

Lemma split_not_nil (a : ascii) (sep s : string) :
  Js.split s (String a sep) <> [].
Proof.
  rewrite split_unfold.
  by destruct (Js.search (String a sep) s) as [[p f]|].
Qed.

Lemma join_cons (x : string) (parts : list string) (sep : string) :
  parts <> [] -> Js.join (x :: parts) sep = x +:+ sep +:+ Js.join parts sep.
Proof. by destruct parts. Qed.

(** The [replaceAll] path: [split] then [join] replaces the occurrences
    found from left to right, none overlapping the one before. *)
Lemma replaceAll_unfold (a : ascii) (old content newString : string) :
  Js.join (Js.split content (String a old)) newString =
    match Js.search (String a old) content with
    | None => content
    | Some (preceding, following) =>
        preceding +:+ newString
          +:+ Js.join (Js.split following (String a old)) newString
    end.
Proof.
  rewrite split_unfold.
  destruct (Js.search (String a old) content) as [[p f]|]; [|done].
  apply join_cons, split_not_nil.
Qed.

(** ** editFile *)

Lemma writeFile_unlocked (disk : Fs.Disk) (filePath content : string) :
  filePath ∉ Fs.locked disk ->
  Fs.writeFile disk filePath content
  = Normal {| Fs.files := <[filePath := content]> (Fs.files disk);
              Fs.locked := Fs.locked disk |}.
Proof. intros H. unfold Fs.writeFile. by rewrite decide_False. Qed.

(** C3: when [oldString] does not occur verbatim in the file, [editFile]
    returns its error text (a value, not an exception) and writes nothing:
    the file system, and with it the file's content, is what it was before
    the call, whatever [replaceAll] is. *)
Theorem editFile_absent_oldString
    (disk : Fs.Disk)
    (filePath content oldString newString : string) (replaceAll : bool) :
  Fs.files disk !! filePath = Some content ->
  ~ occursIn oldString content ->
  editFile filePath oldString newString replaceAll disk
    = (oldStringNotFound, disk)
  /\ Fs.files (editFile filePath oldString newString replaceAll disk).2
       !! filePath = Some content.
Proof.
  intros Hfile Habsent. unfold editFile, Fs.readFile. rewrite Hfile.
  by rewrite (includes_false _ _ Habsent).
Qed.

Lemma editFile_absent_oldString_witness :
  Fs.files (Fs.holding "notes.txt" "hello") !! "notes.txt" = Some "hello"
  /\ ~ occursIn "xyz" "hello"
  /\ editFile "notes.txt" "xyz" "X" true (Fs.holding "notes.txt" "hello")
     = (oldStringNotFound, Fs.holding "notes.txt" "hello").
Proof.
  assert (Habsent : ~ occursIn "xyz" "hello").
  { intros H. apply includes_occursIn in H. vm_compute in H. discriminate H. }
  split; [reflexivity|]. split; [exact Habsent|].
  apply (editFile_absent_oldString (Fs.holding "notes.txt" "hello")
           "notes.txt" "hello" "xyz" "X" true eq_refl Habsent).
Defined.

(** The [replaceAll] path does what the tool says: every occurrence found
    from the left gives way to [newString] itself. *)
Lemma editFile_replaceAll
    (disk : Fs.Disk)
    (filePath content newString : string) (a : ascii) (old : string) :
  Fs.files disk !! filePath = Some content ->
  filePath ∉ Fs.locked disk ->
  occursIn (String a old) content ->
  editFile filePath (String a old) newString true disk
    = ("File edited successfully at " +:+ filePath,
       {| Fs.files :=
            <[filePath := Js.join (Js.split content (String a old)) newString]>
              (Fs.files disk);
          Fs.locked := Fs.locked disk |}).
Proof.
  intros Hfile Hfree Hin. unfold editFile, Fs.readFile. rewrite Hfile.
  apply includes_occursIn in Hin. rewrite Hin. simpl.
  by rewrite writeFile_unlocked.
Qed.

(** The first-occurrence path does so as long as [newString] holds no
    dollar sign. *)
Lemma editFile_first_dollarFree
    (disk : Fs.Disk)
    (filePath content oldString newString : string) :
  Fs.files disk !! filePath = Some content ->
  filePath ∉ Fs.locked disk ->
  occursIn oldString content ->
  dollarFree newString = true ->
  editFile filePath oldString newString false disk
    = ("File edited successfully at " +:+ filePath,
       {| Fs.files :=
            <[filePath := replaceFirstLiterally content oldString newString]>
              (Fs.files disk);
          Fs.locked := Fs.locked disk |}).
Proof.
  intros Hfile Hfree Hin Hdollar. unfold editFile, Fs.readFile.
  rewrite Hfile. apply includes_occursIn in Hin. rewrite Hin. simpl.
  by rewrite replace_dollarFree, writeFile_unlocked.
Qed.

(** C4: with [replaceAll] false and [newString] = [$$], the file [a-a] is
    rewritten as [$-a]: the first occurrence gives way to one dollar sign,
    not to [newString]; the [replaceAll] path writes [$$-$$]. *)
Theorem editFile_first_occurrence_dollar :
  editFile "f" "a" "$$" false (Fs.holding "f" "a-a")
    = ("File edited successfully at f", Fs.holding "f" "$-a")
  /\ replaceFirstLiterally "a-a" "a" "$$" = "$$-a"
  /\ editFile "f" "a" "$$" true (Fs.holding "f" "a-a")
    = ("File edited successfully at f", Fs.holding "f" "$$-$$").
Proof. repeat split; vm_compute; reflexivity. Qed.

Lemma includes_empty (content : string) : Js.includes content "" = true.
Proof. by destruct content. Qed.

(** An empty [oldString] occurs in every content, so it is never reported
    as not found. *)
Lemma editFile_empty_oldString_found
    (disk : Fs.Disk)
    (filePath content newString : string) (replaceAll : bool) :
  Fs.files disk !! filePath = Some content ->
  (editFile filePath "" newString replaceAll disk).1 <> oldStringNotFound.
Proof.
  intros Hfile. unfold editFile, Fs.readFile. rewrite Hfile, includes_empty.
  simpl. unfold oldStringNotFound.
  destruct (Fs.writeFile _ _ _); simpl; intros H;
    apply (f_equal (fun s => String.get 5 s)) in H; by vm_compute in H.
Qed.

(** With no dollar sign in [newString], the text goes in front of the
    content. *)
Lemma editFile_empty_oldString_dollarFree
    (disk : Fs.Disk) (filePath content newString : string) :
  Fs.files disk !! filePath = Some content ->
  filePath ∉ Fs.locked disk ->
  dollarFree newString = true ->
  editFile filePath "" newString false disk
    = ("File edited successfully at " +:+ filePath,
       {| Fs.files := <[filePath := newString +:+ content]> (Fs.files disk);
          Fs.locked := Fs.locked disk |}).
Proof.
  intros Hfile Hfree Hdollar. unfold editFile, Fs.readFile.
  rewrite Hfile, includes_empty. simpl. unfold Js.replace.
  replace (Js.search "" content) with (Some ("", content))
    by (by destruct content).
  by rewrite getSubstitution_dollarFree, writeFile_unlocked.
Qed.

(** C10: with an empty [oldString], [replaceAll] false and [newString] =
    [$$], the call reports success and the file [abc] becomes [$abc]:
    one dollar sign in front of the content, not [newString]. *)
Theorem editFile_empty_oldString_dollar :
  editFile "f" "" "$$" false (Fs.holding "f" "abc")
    = ("File edited successfully at f", Fs.holding "f" "$abc")
  /\ "$$" +:+ "abc" <> "$abc".
Proof. split; [vm_compute; reflexivity | discriminate]. Qed.

(** ** readFile *)

Lemma slice_from (A : Type) (l : list A) (start count : Z) :
  (0 <= start)%Z -> (0 <= count)%Z ->
  slice l start (start + count)
  = take (Z.to_nat count) (drop (Z.to_nat start) l).
Proof.
  intros Hs Hc. unfold slice.
  destruct (Z.ltb_spec start 0) as [?|_]; [lia|].
  destruct (Z.ltb_spec (start + count) 0) as [?|_]; [lia|].
  destruct (Z.le_gt_cases (Z.of_nat (length l)) start) as [Hge|Hlt].
  - rewrite Z.min_r by lia. rewrite (drop_ge l (Z.to_nat start)) by lia.
    rewrite drop_ge by lia. by rewrite !take_nil.
  - rewrite (Z.min_l start) by lia.
    destruct (Z.le_gt_cases (start + count) (Z.of_nat (length l))) as [Hin|Hout].
    + rewrite Z.min_l by lia. f_equal. lia.
    + rewrite Z.min_r by lia.
      rewrite (take_ge (drop _ _) (Z.to_nat count))
        by (rewrite length_drop; lia).
      apply take_ge. rewrite length_drop. lia.
Qed.

Lemma search_LF_line (line rest : string) :
  isLine line = true ->
  Js.search LF (line +:+ LF +:+ rest) = Some (line, rest).
Proof.
  induction line as [|c line IH]; [done|]. intros H. simpl in H.
  apply andb_true_iff in H as [Hc Hl]. rewrite app_String, search_unfold.
  unfold LF at 1. cbn [Js.stripPrefix].
  rewrite Ascii.eqb_sym. apply negb_true_iff in Hc. rewrite Hc.
  by rewrite (IH Hl).
Qed.

Lemma search_LF_last (line : string) :
  isLine line = true -> Js.search LF line = None.
Proof.
  induction line as [|c line IH]; [done|]. intros H. simpl in H.
  apply andb_true_iff in H as [Hc Hl]. rewrite search_unfold.
  unfold LF at 1. cbn [Js.stripPrefix].
  rewrite Ascii.eqb_sym. apply negb_true_iff in Hc. rewrite Hc.
  by rewrite (IH Hl).
Qed.

(** Splitting at line feeds gives back the lines that were joined. *)
Lemma split_join_lines (line : string) (lines : list string) :
  forallb isLine (line :: lines) = true ->
  Js.split (Js.join (line :: lines) LF) LF = line :: lines.
Proof.
  revert line. induction lines as [|l lines IH]; intros line H;
    simpl in H; apply andb_true_iff in H as [Hline Hrest].
  - unfold LF. rewrite split_unfold. fold LF. simpl.
    by rewrite search_LF_last.
  - rewrite join_cons by done. unfold LF at 3. rewrite split_unfold. fold LF.
    rewrite search_LF_line by done. f_equal. by apply IH.
Qed.

(** C5: from line [offset] on (counting from 1), [readFile] returns at
    most [limit] lines, each behind its own line number; past the last
    line the result is the empty text; and on a file whose first ten
    lines are [l1] to [l10], offset 5 and limit 3 give lines 5, 6 and 7
    behind the numbers 5, 6 and 7. *)
Theorem readFile_numbered_lines
    (disk : Fs.Disk) (filePath content : string)
    (offset limit : Z) :
  Fs.files disk !! filePath = Some content ->
  (1 <= offset)%Z -> (0 <= limit)%Z ->
  readFile filePath offset limit disk
    = Js.join
        (imap (fun index line => numbered (offset + Z.of_nat index) line)
              (take (Z.to_nat limit)
                    (drop (Z.to_nat (offset - 1)) (Js.split content LF))))
        LF
  /\ ((Z.of_nat (length (Js.split content LF)) < offset)%Z ->
      readFile filePath offset limit disk = "")
  /\ (forall (l1 l2 l3 l4 l5 l6 l7 l8 l9 l10 : string) (more : list string),
        forallb isLine (l1 :: l2 :: l3 :: l4 :: l5 :: l6 :: l7 :: l8 :: l9
                           :: l10 :: more) = true ->
        content = Js.join (l1 :: l2 :: l3 :: l4 :: l5 :: l6 :: l7 :: l8 :: l9
                              :: l10 :: more) LF ->
        readFile filePath 5 3 disk
          = ("5 | " +:+ l5) +:+ LF +:+ ("6 | " +:+ l6) +:+ LF
              +:+ ("7 | " +:+ l7)).
Proof.
  intros Hfile Hoffset Hlimit.
  assert (Hread : forall o n, (1 <= o)%Z -> (0 <= n)%Z ->
    readFile filePath o n disk
    = Js.join
        (imap (fun index line => numbered (o + Z.of_nat index) line)
              (take (Z.to_nat n)
                    (drop (Z.to_nat (o - 1)) (Js.split content LF))))
        LF).
  { intros o n Ho Hn. unfold readFile, Fs.readFile. rewrite Hfile.
    by rewrite slice_from by lia. }
  split; [by apply Hread|]. split.
  - intros Hpast. rewrite Hread by done.
    rewrite drop_ge by lia. by rewrite take_nil.
  - intros l1 l2 l3 l4 l5 l6 l7 l8 l9 l10 more Hlines ->.
    rewrite Hread by lia. rewrite split_join_lines by done.
    reflexivity.
Qed.

Lemma readFile_numbered_lines_witness :
  let lines := ["a"; "b"; "c"; "d"; "e"; "f"; "g"; "h"; "i"; "j"] in
  readFile "ten.txt" 5 3 (Fs.holding "ten.txt" (Js.join lines LF))
    = "5 | e" +:+ LF +:+ "6 | f" +:+ LF +:+ "7 | g"
  /\ readFile "ten.txt" 11 3 (Fs.holding "ten.txt" (Js.join lines LF)) = "".
Proof.
  intros lines. split.
  - destruct (readFile_numbered_lines
                (Fs.holding "ten.txt" (Js.join lines LF))
                "ten.txt" (Js.join lines LF) 5 3)
      as (_ & _ & Hten); [reflexivity | lia | lia |].
    apply (Hten "a" "b" "c" "d" "e" "f" "g" "h" "i" "j" []); reflexivity.
  - destruct (readFile_numbered_lines
                (Fs.holding "ten.txt" (Js.join lines LF))
                "ten.txt" (Js.join lines LF) 11 3)
      as (_ & Hpast & _); [reflexivity | lia | lia |].
    apply Hpast. vm_compute. reflexivity.
Defined.

(** ** findFiles *)

Lemma normalize_absolute (p : string) :
  Path.isAbsolute p = true -> Path.isAbsolute (Path.normalize p) = true.
Proof.
  destruct p as [|c p]; [done|]. intros Habs. unfold Path.normalize.
  rewrite Habs. by destruct (Path.normalizeString _ _).
Qed.

Lemma join_absolute (cwd file : string) :
  Path.isAbsolute cwd = true -> Path.isAbsolute (Path.join cwd file) = true.
Proof.
  destruct cwd as [|c cwd]; [done|]. intros Habs.
  destruct file as [|d file]; cbn [Path.join]; by apply normalize_absolute.
Qed.

(** Reading back what [JSON.stringify] wrote. *)
Lemma parseChars_escape (c : ascii) (t : string) :
  Json.parseChars (Json.escape c +:+ t) = Json.prepend c (Json.parseChars t).
Proof. destruct c as [[] [] [] [] [] [] [] []]; reflexivity. Qed.

Lemma parseChars_escapeAll (text rest : string) :
  Json.parseChars (Json.escapeAll text +:+ String Json.quote rest)
  = Some (text, rest).
Proof.
  induction text as [|c text IH]; [done|]. cbn [Json.escapeAll].
  by rewrite app_assoc_s, parseChars_escape, IH.
Qed.

Lemma quoteString_app (text rest : string) :
  Json.quoteString text +:+ rest
  = String Json.quote (Json.escapeAll text +:+ String Json.quote rest).
Proof.
  unfold Json.quoteString. by rewrite app_String, app_assoc_s, app_String.
Qed.

Lemma parseElements_stringify (l : list string) :
  forall (x : string) (n : nat),
    length l < n ->
    Json.parseElements n (Js.join (map Json.quoteString (x :: l)) "," +:+ "]")
    = Some (x :: l).
Proof.
  induction l as [|y l IH]; intros x n Hn;
    (destruct n as [|n]; [lia|]).
  - change (Js.join (map Json.quoteString [x]) ",")
      with (Json.quoteString x).
    rewrite quoteString_app. cbn [Json.parseElements].
    by rewrite Ascii.eqb_refl, parseChars_escapeAll.
  - change (map Json.quoteString (x :: y :: l))
      with (Json.quoteString x :: map Json.quoteString (y :: l)).
    rewrite join_cons by done. rewrite !app_assoc_s, quoteString_app.
    cbn [Json.parseElements].
    rewrite Ascii.eqb_refl, parseChars_escapeAll.
    rewrite !app_String, app_empty_l. cbn [Ascii.eqb Bool.eqb].
    rewrite IH by (simpl in Hn; lia). done.
Qed.

Lemma stringify_length (l : list string) (x : string) :
  length l + 2
  <= String.length (Js.join (map Json.quoteString (x :: l)) "," +:+ "]").
Proof.
  revert x. induction l as [|y l IH]; intros x.
  - change (Js.join (map Json.quoteString [x]) ",")
      with (Json.quoteString x).
    rewrite quoteString_app. simpl. rewrite app_length_s. simpl. lia.
  - change (map Json.quoteString (x :: y :: l))
      with (Json.quoteString x :: map Json.quoteString (y :: l)).
    rewrite join_cons by done. rewrite !app_assoc_s, quoteString_app.
    simpl. rewrite !app_length_s. simpl. rewrite app_length_s.
    specialize (IH y). simpl in *. lia.
Qed.

(** The text [JSON.stringify] gives for an array of strings is read back
    as that array. *)
Lemma parseStrings_stringify (l : list string) :
  Json.parseStrings (Json.stringifyStrings l) = Some l.
Proof.
  destruct l as [|x l]; [done|]. unfold Json.stringifyStrings.
  rewrite app_String, app_empty_l.
  pose proof (stringify_length l x) as Hlen.
  pose proof (parseElements_stringify l x) as Hparse.
  destruct (Js.join (map Json.quoteString (x :: l)) "," +:+ "]")
    as [|c [|d rest]] eqn:E; [simpl in Hlen; lia | simpl in Hlen; lia|].
  cbn [Json.parseStrings]. rewrite Ascii.eqb_refl.
  apply Hparse. simpl in Hlen |- *. lia.
Qed.

(** A segment without a wildcard matches itself only. *)
Lemma wildcard_literal (p s : string) :
  literalSegment p = true -> Tree.wildcard p s = String.eqb p s.
Proof.
  revert s. induction p as [|c p IH]; intros s H.
  - by destruct s.
  - simpl in H. apply andb_true_iff in H as [H Hp].
    apply andb_true_iff in H as [Hstar Hquery].
    apply negb_true_iff in Hstar, Hquery.
    cbn [Tree.wildcard]. rewrite Hstar. destruct s as [|d s]; [done|].
    rewrite Hquery. cbn [orb String.eqb]. rewrite (IH s Hp).
    by destruct (Ascii.eqb c d).
Qed.

Lemma doubleStar_all (ss : list string) : Tree.segments true ["**"] ss = true.
Proof.
  induction ss as [|s ss IH]; [done|].
  cbn in *. by rewrite IH.
Qed.

(** The exclusion that [findFiles] passes leaves out the files of the
    dependency directory, and only those. *)
Lemma ignore_node_modules (file : string) :
  Tree.matches true "node_modules/**" file = underNodeModules file.
Proof.
  unfold Tree.matches, underNodeModules.
  change (Js.split "node_modules/**" "/") with ["node_modules"; "**"].
  destruct (Js.split file "/") as [|first rest]; [done|].
  change (Tree.segments true ["node_modules"; "**"] (first :: rest))
    with (Tree.segment true "node_modules" first
          && Tree.segments true ["**"] rest).
  rewrite doubleStar_all, andb_true_r. unfold Tree.segment.
  cbn [orb andb]. rewrite wildcard_literal by done.
  apply String.eqb_sym.
Qed.

Lemma filter_ext_bool {A : Type} (f g : A -> bool) (l : list A) :
  (forall x, f x = g x) -> List.filter f l = List.filter g l.
Proof.
  intros H. induction l as [|x l IH]; [done|]. simpl. by rewrite H, IH.
Qed.

(** C6: on a working tree (the list of its files, [glob] modelled from the
    spec), [findFiles] returns a text that reads back as a JSON array: the
    array of the files of the tree that match the pattern and are not in
    [node_modules], in the order of the tree, each joined to the working
    directory and so absolute; when no file matches, the text is [[]]; and
    on the tree of [a/x.test.js] and [b/y.js] the pattern [**/*.test.js]
    gives the array that holds the absolute path of [a/x.test.js] and
    nothing else. *)
Theorem findFiles_json_array
    (cwd : string) (tree : list string) (pattern : string) :
  Path.isAbsolute cwd = true ->
  let matched :=
    List.filter
      (fun file => Tree.matches false pattern file
                   && negb (underNodeModules file))
      tree in
  let result := findFiles cwd (Tree.glob tree) pattern in
  Json.parseStrings result
    = Some (map (fun file => Path.join cwd file) matched)
  /\ result = Json.stringifyStrings (map (fun file => Path.join cwd file) matched)
  /\ Forall (fun p => Path.isAbsolute p = true)
            (map (fun file => Path.join cwd file) matched)
  /\ (matched = [] -> result = "[]")
  /\ (pattern = "**/*.test.js" -> tree = ["a/x.test.js"; "b/y.js"] ->
      Json.parseStrings result = Some [Path.join cwd "a/x.test.js"]).
Proof.
  intros Hcwd matched result.
  assert (Hres : result
    = Json.stringifyStrings (map (fun file => Path.join cwd file) matched)).
  { unfold result, findFiles, Tree.glob, matched. do 2 f_equal.
    apply filter_ext_bool. intros file. by rewrite ignore_node_modules. }
  assert (Hparse : Json.parseStrings result
    = Some (map (fun file => Path.join cwd file) matched)).
  { rewrite Hres. apply parseStrings_stringify. }
  split; [done|]. split; [done|]. split.
  - apply Forall_map, Forall_true. intros file. by apply join_absolute.
  - split.
    + intros Hnone. by rewrite Hres, Hnone.
    + intros Hpattern Htree. rewrite Hparse. unfold matched.
      by rewrite Hpattern, Htree.
Qed.

(** On the tree [{a/x.test.js, b/y.js}] under [/work]. *)
Lemma findFiles_json_array_witness :
  Path.isAbsolute "/work" = true
  /\ findFiles "/work" (Tree.glob ["a/x.test.js"; "b/y.js"]) "**/*.test.js"
     = "[" +:+ String Json.quote "/work/a/x.test.js"
           +:+ String Json.quote "]"
  /\ Json.parseStrings
       (findFiles "/work" (Tree.glob ["a/x.test.js"; "b/y.js"]) "**/*.test.js")
     = Some ["/work/a/x.test.js"].
Proof.
  destruct (findFiles_json_array "/work" ["a/x.test.js"; "b/y.js"]
              "**/*.test.js" eq_refl) as (_ & Htext & _ & _ & Hexample).
  split; [reflexivity|]. split; [exact Htext | exact (Hexample eq_refl eq_refl)].
Defined.

(** A file under [node_modules] and a file whose name starts with a dot
    are left out, and a tree without a match gives the empty array. *)
Example findFiles_node_modules :
  findFiles "/work"
    (Tree.glob ["a/x.test.js"; "node_modules/m/z.test.js"; "a/.y.test.js";
                "b/y.js"])
    "**/*.test.js"
  = "[" +:+ String Json.quote "/work/a/x.test.js" +:+ String Json.quote "]"
  /\ findFiles "/work" (Tree.glob ["b/y.js"]) "**/*.test.js" = "[]".
Proof. split; reflexivity. Qed.

(** ** searchFileContents *)

Example grepCommand_example :
  grepCommand "foo" "." (Some "*.js") true
  = "grep -rni --include=" +:+ String Json.quote "*.js"
      +:+ String Json.quote " " +:+ String Json.quote "foo"
      +:+ String Json.quote " " +:+ String Json.quote "."
      +:+ String Json.quote "".
Proof. reflexivity. Qed.

(** No output and a failure (a status other than 0, or error output):
    the answer is the fixed text. *)
Lemma searchFileContents_no_output
    (shell : string -> ProcessResult) (pattern searchPath : string)
    (globPattern : option string) (caseInsensitive : bool) :
  let r := shell (grepCommand pattern searchPath globPattern caseInsensitive) in
  stdout r = "" ->
  exitCode r <> 0%Z \/ stderr r <> "" ->
  searchFileContents shell pattern searchPath globPattern caseInsensitive
    = Normal "No matches found.".
Proof.
  intros r Hout Herr. unfold searchFileContents, executeCommand, execAsync.
  fold r. rewrite Hout. change (exceedsBuffer "") with false. cbv iota.
  destruct (exceedsBuffer (stderr r)); [done|].
  destruct (Z.eqb_spec (exitCode r) 0) as [Hz|Hnz]; [|done].
  destruct Herr as [?|Herr]; [done|].
  destruct (stderr r); [done|]. reflexivity.
Qed.

(** Status 0 and matched lines on the output, within the buffer of
    [exec]: they are returned, trimmed. *)
Lemma searchFileContents_matches
    (shell : string -> ProcessResult) (pattern searchPath : string)
    (globPattern : option string) (caseInsensitive : bool) :
  let r := shell (grepCommand pattern searchPath globPattern caseInsensitive) in
  exitCode r = 0%Z ->
  stdout r <> "" ->
  exceedsBuffer (stdout r) = false ->
  exceedsBuffer (stderr r) = false ->
  searchFileContents shell pattern searchPath globPattern caseInsensitive
    = Normal (Js.trim (stdout r)).
Proof.
  intros r Hz Hout Hfit1 Hfit2.
  unfold searchFileContents, executeCommand, execAsync.
  fold r. rewrite Hfit1, Hfit2, Hz. simpl.
  destruct (stdout r) eqn:E; [done|]. simpl. by rewrite andb_false_r.
Qed.

(** C8: [grep] found a match and also met a file it could not read, so it
    printed the matched line and ended with status 2: the function answers
    that nothing matched.  With status 0 the same output is returned. *)
Theorem searchFileContents_matches_dropped :
  let matched := "src/a.js:1:foo" +:+ LF in
  let denied := "grep: ./secret: Permission denied" +:+ LF in
  searchFileContents
    (fun _ => {| exitCode := 2; stdout := matched; stderr := denied |})
    "foo" "." None false
  = Normal "No matches found."
  /\ searchFileContents
       (fun _ => {| exitCode := 0; stdout := matched; stderr := denied |})
       "foo" "." None false
     = Normal "src/a.js:1:foo".
Proof. split; reflexivity. Qed.

(** ** The aggregator: callAgent *)

Lemma concat_empty_cons (x : string) (l : list string) :
  String.concat "" (x :: l) = x +:+ String.concat "" l.
Proof. destruct l; simpl; [by rewrite app_empty_r | done]. Qed.

Lemma fullText_cons (part : Fragment) (parts : list Fragment) :
  fullText (part :: parts) = part_content part +:+ fullText parts.
Proof. apply concat_empty_cons. Qed.

Lemma last_cons_default {A : Type} (x : A) (l : list A) (d : A) :
  default d (last (x :: l)) = default x (last l).
Proof.
  revert x d. induction l as [|y l IH]; intros x d; [done|].
  change (last (x :: y :: l)) with (last (y :: l)).
  by rewrite (IH y d), (IH y x).
Qed.

Lemma batches_cons (part : Fragment) (parts : list Fragment) :
  batches (part :: parts)
  = match part_tool_calls part with
    | Some batch => batch :: batches parts
    | None => batches parts
    end.
Proof. reflexivity. Qed.

Section Aggregator.

Context {World : Type}.
Implicit Types (st : State World) (parts : list Fragment).

(** The loop over the parts: the text grows by the deltas in order, the
    batch is the last one carried, every delta is written at once. *)
Lemma fold_consume parts (text : string) (calls : list ToolCall) st :
  fold_left (consume World) parts (text, calls, st)
  = (text +:+ fullText parts,
     default calls (last (batches parts)),
     {| messages := messages st; world := world st;
        terminal := rev (map (fun p => Chunk (part_content p)) parts)
                      ++ terminal st;
        requests := requests st |}).
Proof.
  revert text calls st. induction parts as [|part parts IH];
    intros text calls st.
  - simpl. rewrite app_empty_r. by destruct st.
  - cbn [fold_left]. unfold consume at 2.
    rewrite fullText_cons, <- app_assoc_s, batches_cons.
    destruct (part_tool_calls part) as [batch|]; simpl;
      rewrite IH; simpl; rewrite <- ?app_assoc; try done.
    by rewrite last_cons_default.
Qed.

Lemma callAgent_Stream parts st :
  callAgent World (Stream parts) st
  = (Normal (lastBatch parts),
     {| messages := messages st
                      ++ [assistantMessage (fullText parts) (lastBatch parts)];
        world := world st;
        terminal := Newline
                      :: rev (map (fun p => Chunk (part_content p)) parts)
                      ++ AgentLabel :: terminal st;
        requests := {| request_messages := messages st;
                       request_stream := true;
                       request_tools := Some tools |} :: requests st |}).
Proof. unfold callAgent. rewrite fold_consume. reflexivity. Qed.

Lemma callAgent_StreamFailure parts (message : string) st :
  callAgent World (StreamFailure parts message) st
  = (Throw message,
     {| messages := messages st;
        world := world st;
        terminal := rev (map (fun p => Chunk (part_content p)) parts)
                      ++ AgentLabel :: terminal st;
        requests := {| request_messages := messages st;
                       request_stream := true;
                       request_tools := Some tools |} :: requests st |}).
Proof. unfold callAgent. rewrite fold_consume. reflexivity. Qed.

End Aggregator.

Lemma lastBatch_nonEmpty (parts : list Fragment) :
  forallb nonEmpty (batches parts) = true ->
  lastBatch parts = lastNonEmptyBatch parts.
Proof.
  unfold lastBatch, lastNonEmptyBatch. intros H.
  replace (List.filter nonEmpty (batches parts)) with (batches parts); [done|].
  induction (batches parts) as [|b bs IH]; [done|]. simpl in *.
  apply andb_true_iff in H as [-> H]. f_equal. by apply IH.
Qed.

(** C1, as the claim has it, fails: a part that carries an empty batch
    after a part that carried a call leaves the agent with no call, while
    the last non-empty batch is that call. *)
Lemma callAgent_empty_batch_replaces :
  let findCall := {| function_name := "findFiles";
                     function_arguments := [("pattern", JString "*.js")] |} in
  let parts := [ {| part_content := "a"; part_tool_calls := Some [findCall] |};
                 {| part_content := "b"; part_tool_calls := Some [] |} ] in
  (callAgent unit (Stream parts) (start initialMessages ())).1 = Normal []
  /\ lastNonEmptyBatch parts = [findCall]
  /\ (callAgent unit (Stream parts) (start initialMessages ())).1
     <> Normal (lastNonEmptyBatch parts).
Proof.
  split; [reflexivity|]. split; [reflexivity|].
  intros H. vm_compute in H. discriminate H.
Qed.

(** C1, amended: for every sequence of parts of a turn that completes, the
    text of the agent is the deltas put together in order, the batch it
    keeps is the last batch carried by a part (empty when none carried
    one), which is the last non-empty batch as long as no part carries an
    empty one, and exactly one message is appended to the history: an
    assistant message with that text and that batch, the batch left out
    when it is empty. *)
Theorem callAgent_aggregates (World : Type) (parts : list Fragment)
    (st : State World) :
  (callAgent World (Stream parts) st).1 = Normal (lastBatch parts)
  /\ messages (callAgent World (Stream parts) st).2
     = messages st
         ++ [ {| role := Assistant; content := Text (fullText parts);
                 tool_calls := batchOrUndefined (lastBatch parts);
                 name := None |} ]
  /\ (batches parts = [] -> lastBatch parts = [])
  /\ (forallb nonEmpty (batches parts) = true ->
      lastBatch parts = lastNonEmptyBatch parts).
Proof.
  rewrite callAgent_Stream. simpl. split; [done|]. split; [done|]. split.
  - unfold lastBatch. by intros ->.
  - apply lastBatch_nonEmpty.
Qed.

Lemma callAgent_aggregates_witness :
  let readCall := {| function_name := "readFile";
                     function_arguments := [("filePath", JString "a.js")] |} in
  let parts := [ {| part_content := "Let me "; part_tool_calls := None |};
                 {| part_content := "look."; part_tool_calls := Some [readCall] |};
                 {| part_content := ""; part_tool_calls := None |} ] in
  forallb nonEmpty (batches parts) = true
  /\ (callAgent unit (Stream parts) (start initialMessages ())).1
     = Normal [readCall]
  /\ fullText parts = "Let me look."
  /\ lastNonEmptyBatch parts = [readCall].
Proof.
  intros readCall parts.
  destruct (callAgent_aggregates unit parts (start initialMessages ()))
    as (Hcalls & _ & _ & Hlast).
  split; [reflexivity|]. split; [exact Hcalls|]. split; [reflexivity|].
  rewrite <- (Hlast eq_refl). reflexivity.
Defined.

(** ** The tool registry: executeTool *)

Section Registry.

Context {World : Type}.
Variable implementation : OwnTool -> Args -> World -> Completion string * World.
Variable typeError : string -> Args -> string.
Implicit Types (st : State World) (toolCall : ToolCall).

Local Abbreviation runTool := (executeTool World implementation typeError).
Local Abbreviation runAll := (executeAll World implementation typeError).

(** A name that the registry object neither holds nor inherits: the
    result is the error text that names the tool, and only the trace is
    written. *)
Lemma executeTool_not_found toolCall st :
  availableTools (function_name toolCall) = None ->
  runTool toolCall st
  = (Text ("Error: Tool " +:+ function_name toolCall +:+ " not found."),
     write (ToolTrace (function_name toolCall) (function_arguments toolCall))
           st).
Proof. intros H. unfold executeTool. by rewrite H. Qed.

(** A tool of the registry that throws: the error is caught and turned
    into text. *)
Lemma executeTool_caught toolCall (t : OwnTool) (message : string)
    (w : World) st :
  ownTool (function_name toolCall) = Some t ->
  implementation t (function_arguments toolCall) (world st)
    = (Throw message, w) ->
  (runTool toolCall st).1
  = Text ("Error executing " +:+ function_name toolCall +:+ ": " +:+ message).
Proof.
  intros Hown Himpl. unfold executeTool, availableTools.
  rewrite Hown. cbn. by rewrite Himpl.
Qed.

(** A tool of the registry that fulfils: its text is the result. *)
Lemma executeTool_fulfilled toolCall (t : OwnTool) (text : string)
    (w : World) st :
  ownTool (function_name toolCall) = Some t ->
  implementation t (function_arguments toolCall) (world st)
    = (Normal text, w) ->
  (runTool toolCall st).1 = Text text.
Proof.
  intros Hown Himpl. unfold executeTool, availableTools.
  rewrite Hown. cbn. by rewrite Himpl.
Qed.

(** Running a tool leaves the history and the requests alone. *)
Lemma executeTool_frame toolCall st :
  messages (runTool toolCall st).2 = messages st
  /\ requests (runTool toolCall st).2 = requests st.
Proof.
  unfold executeTool.
  destruct (availableTools (function_name toolCall)) as [tool|]; [|done].
  by destruct (call _ _ _ _ _ _ _) as [[result|message] w].
Qed.

(** The loop over the calls appends one tool message for each call, in
    the order of the calls, and sends nothing to the backend. *)
Lemma executeAll_appends (calls : list ToolCall) st :
  exists results : list Value,
    length results = length calls
    /\ messages (runAll calls st)
       = messages st ++ zip_with toolMessage calls results
    /\ requests (runAll calls st) = requests st.
Proof.
  revert st. induction calls as [|toolCall calls IH]; intros st.
  - exists []. simpl. by rewrite app_nil_r.
  - cbn [executeAll].
    destruct (runTool toolCall st) as [result st1] eqn:E.
    destruct (executeTool_frame toolCall st) as [Hm Hr].
    rewrite E in Hm, Hr. simpl in Hm, Hr.
    destruct (IH (push (toolMessage toolCall result) st1))
      as (results & Hlen & Hmsgs & Hreqs).
    exists (result :: results). simpl. split; [by rewrite Hlen|].
    rewrite Hmsgs, Hreqs. simpl. rewrite Hm, Hr.
    by rewrite <- app_assoc.
Qed.

End Registry.

(** C7: the name [toString] is not one of the five tools, but the registry
    object inherits a member of that name; the call is not reported as a
    missing tool: its result is the text [[object Undefined]].  A name
    that is neither held nor inherited is reported. *)
Theorem executeTool_inherited_name :
  let toolCall := {| function_name := "toString"; function_arguments := [] |} in
  let unknown := {| function_name := "listFiles"; function_arguments := [] |} in
  let st := start initialMessages () in
  let implementation := fun (_ : OwnTool) (_ : Args) (w : unit) =>
                          (Normal "done", w) in
  ownTool "toString" = None
  /\ (executeTool unit implementation (fun _ _ => "TypeError") toolCall st).1
     = Text "[object Undefined]"
  /\ (executeTool unit implementation (fun _ _ => "TypeError") unknown st).1
     = Text "Error: Tool listFiles not found.".
Proof. repeat split; reflexivity. Qed.

(** ** The shape of the history *)

Lemma scan_app (pending : list ToolCall) (h1 h2 : list Message) :
  scan pending (h1 ++ h2) = scan pending h1 ≫= fun pending' => scan pending' h2.
Proof.
  revert pending. induction h1 as [|m h1 IH]; intros pending; [done|].
  simpl. destruct (role m); try apply IH.
  destruct pending as [|c pending]; [done|].
  case_bool_decide; [apply IH | done].
Qed.

Lemma scan_toolMessages (calls : list ToolCall) (results : list Value) :
  length results = length calls ->
  scan calls (zip_with toolMessage calls results) = Some [].
Proof.
  revert results. induction calls as [|c calls IH]; intros results Hlen.
  - by destruct results.
  - destruct results as [|r results]; [done|]. simpl.
    rewrite bool_decide_eq_true_2 by done. apply IH. simpl in Hlen. lia.
Qed.

Lemma default_batchOrUndefined (calls : list ToolCall) :
  default [] (batchOrUndefined calls) = calls.
Proof. by destruct calls. Qed.

Lemma scan_Appended (l : list Message) :
  Appended l -> forall pending, is_Some (scan pending l).
Proof.
  induction 1 as [|userInput rest _ IH|text calls results rest Hlen _ IH];
    intros pending.
  - by eexists.
  - apply IH.
  - cbn [scan assistantMessage role tool_calls].
    rewrite default_batchOrUndefined, scan_app, scan_toolMessages by done.
    apply IH.
Qed.

Lemma wellFormed_app (history l : list Message) :
  wellFormed history = true -> Appended l -> wellFormed (history ++ l) = true.
Proof.
  unfold wellFormed. rewrite scan_app.
  destruct (scan [] history) as [pending|]; [|done]. intros _ Hl. simpl.
  by destruct (scan_Appended l Hl pending) as [p ->].
Qed.

Lemma Appended_app (l1 l2 : list Message) :
  Appended l1 -> Appended l2 -> Appended (l1 ++ l2).
Proof.
  induction 1 as [|userInput rest _ IH|text calls results rest Hlen _ IH];
    intros H2; [done| |].
  - simpl. constructor. by apply IH.
  - simpl. rewrite <- app_assoc. constructor; [done|]. by apply IH.
Qed.

(** The reading of [scan]: a tool message answers a call that is pending
    at the start or that an earlier assistant message declared. *)
Lemma scan_answers (history : list Message) :
  forall (pending : list ToolCall) (i : nat) (m : Message),
    is_Some (scan pending history) ->
    history !! i = Some m -> role m = Tool ->
    (exists c, c ∈ pending /\ name m = Some (function_name c))
    \/ (exists (j : nat) (a : Message) (calls : list ToolCall) (c : ToolCall),
          j < i /\ history !! j = Some a /\ role a = Assistant
          /\ tool_calls a = Some calls /\ c ∈ calls
          /\ name m = Some (function_name c)).
Proof.
  induction history as [|x rest IH]; intros pending i m Hscan Hi Hrole;
    [done|].
  assert (Hshift : forall i' : nat,
    (exists (j : nat) (a : Message) (calls : list ToolCall) (c : ToolCall),
        j < i' /\ rest !! j = Some a /\ role a = Assistant
        /\ tool_calls a = Some calls /\ c ∈ calls
        /\ name m = Some (function_name c)) ->
    exists (j : nat) (a : Message) (calls : list ToolCall) (c : ToolCall),
        j < S i' /\ (x :: rest) !! j = Some a /\ role a = Assistant
        /\ tool_calls a = Some calls /\ c ∈ calls
        /\ name m = Some (function_name c)).
  { intros i' (j & a & calls & c & Hj & Ha & Hrest).
    exists (S j), a, calls, c. split; [lia|]. by split. }
  simpl in Hscan. destruct (role x) eqn:Hx.
  - destruct i as [|i]; simpl in Hi; [congruence|].
    destruct (IH [] i m Hscan Hi Hrole) as [(c & Hc & _)|H].
    + by apply elem_of_nil in Hc.
    + right. by apply Hshift.
  - destruct i as [|i]; simpl in Hi; [congruence|].
    destruct (IH [] i m Hscan Hi Hrole) as [(c & Hc & _)|H].
    + by apply elem_of_nil in Hc.
    + right. by apply Hshift.
  - destruct i as [|i]; simpl in Hi; [congruence|].
    destruct (IH _ i m Hscan Hi Hrole) as [(c & Hc & Hname)|H].
    + right. destruct (tool_calls x) as [calls|] eqn:Hcalls;
        [|by apply elem_of_nil in Hc].
      exists 0, x, calls, c. split; [lia|]. by repeat split.
    + right. by apply Hshift.
  - destruct pending as [|c pending]; [by destruct Hscan|].
    case_bool_decide as Hname; [|by destruct Hscan].
    destruct i as [|i]; simpl in Hi.
    + injection Hi as <-. left. exists c. split; [apply elem_of_cons; by left|done].
    + destruct (IH pending i m Hscan Hi Hrole) as [(c' & Hc' & Hname')|H].
      * left. exists c'. split; [apply elem_of_cons; by right|done].
      * right. by apply Hshift.
Qed.

Lemma wellFormed_toolFollowsAssistant (history : list Message) :
  wellFormed history = true -> toolFollowsAssistant history.
Proof.
  unfold wellFormed. intros H i m Hi Hrole.
  destruct (scan_answers history [] i m) as [(c & Hc & _)|Hfound]; try done.
  - by destruct (scan [] history).
  - by apply elem_of_nil in Hc.
Qed.

(** ** The conversation loop of the tool-augmented agent *)

Section Loop.

Context {World : Type}.
Variable implementation : OwnTool -> Args -> World -> Completion string * World.
Variable typeError : string -> Args -> string.
Implicit Types (st : State World) (replies : list StreamReply).

Local Abbreviation runAll := (executeAll World implementation typeError).
Local Abbreviation talk := (converse World implementation typeError).
Local Abbreviation run := (chat World implementation typeError).

(** A turn that asks for tools: they are all run, and the loop goes on
    with the next turn. *)
Lemma converse_calls (parts : list Fragment) replies st :
  lastBatch parts <> [] ->
  talk (Stream parts :: replies) st
  = talk replies
      (runAll (lastBatch parts) (callAgent World (Stream parts) st).2).
Proof.
  intros Hcalls. cbn [converse]. rewrite callAgent_Stream.
  by destruct (lastBatch parts).
Qed.

(** A turn that asks for none: the loop ends. *)
Lemma converse_break (parts : list Fragment) replies st :
  lastBatch parts = [] ->
  talk (Stream parts :: replies) st
  = (AwaitingUser, replies, (callAgent World (Stream parts) st).2).
Proof.
  intros Hcalls. cbn [converse]. rewrite callAgent_Stream.
  by rewrite Hcalls.
Qed.

Lemma converse_Appended replies st :
  exists l, Appended l /\ messages (talk replies st).2 = messages st ++ l.
Proof.
  revert st. induction replies as [|reply replies IH]; intros st.
  - exists []. split; [constructor|]. simpl. by rewrite app_nil_r.
  - destruct reply as [parts|parts message].
    + destruct (lastBatch parts) as [|c calls] eqn:Hcalls.
      * rewrite converse_break by done. rewrite callAgent_Stream, Hcalls.
        exists [assistantMessage (fullText parts) []]. split; [|done].
        by apply (appended_turn _ [] [] []); [|constructor].
      * rewrite converse_calls by (by rewrite Hcalls).
        rewrite callAgent_Stream, Hcalls. cbn [snd].
        match goal with |- context [runAll ?cs ?s] =>
          destruct (executeAll_appends implementation typeError cs s)
            as (results & Hlen & Hmsgs & _);
          destruct (IH (runAll cs s)) as (l & Hl & Hfinal)
        end.
        rewrite Hfinal, Hmsgs. cbn [messages].
        exists (assistantMessage (fullText parts) (c :: calls)
                  :: zip_with toolMessage (c :: calls) results ++ l).
        split; [by constructor|]. by rewrite <- !app_assoc.
    + cbn [converse]. rewrite callAgent_StreamFailure.
      exists []. split; [constructor|]. simpl. by rewrite app_nil_r.
Qed.

Lemma chat_Appended (inputs : list string) replies st :
  exists l, Appended l /\ messages (run inputs replies st).2 = messages st ++ l.
Proof.
  revert replies st. induction inputs as [|userInput inputs IH];
    intros replies st.
  - exists []. split; [constructor|]. simpl. by rewrite app_nil_r.
  - cbn [chat].
    match goal with |- context [talk replies ?s] =>
      destruct (converse_Appended replies s) as (l & Hl & Hmsgs);
      destruct (talk replies s) as [[control replies'] st1] eqn:E
    end.
    simpl in Hmsgs.
    assert (Happ : Appended (userMessage userInput :: l)) by by constructor.
    destruct control.
    + destruct (IH replies' st1) as (l' & Hl' & Hfinal).
      exists ((userMessage userInput :: l) ++ l'). split.
      * by apply Appended_app.
      * rewrite Hfinal, Hmsgs. by rewrite <- !app_assoc.
    + exists (userMessage userInput :: l). split; [done|].
      simpl. rewrite Hmsgs. by rewrite <- app_assoc.
    + exists (userMessage userInput :: l). split; [done|].
      simpl. rewrite Hmsgs. by rewrite <- app_assoc.
Qed.

(** The history only grows, and keeps its shape. *)
Lemma chat_history (inputs : list string) replies st :
  messages st `prefix_of` messages (run inputs replies st).2
  /\ (wellFormed (messages st) = true ->
      wellFormed (messages (run inputs replies st).2) = true
      /\ toolFollowsAssistant (messages (run inputs replies st).2)).
Proof.
  destruct (chat_Appended inputs replies st) as (l & Hl & Hmsgs).
  rewrite Hmsgs. split; [by exists l|]. intros Hwf.
  assert (wellFormed (messages st ++ l) = true) by by apply wellFormed_app.
  split; [done|]. by apply wellFormed_toolFollowsAssistant.
Qed.

End Loop.

Lemma toolMessages_roles (calls : list ToolCall) (results : list Value) :
  Forall (fun m => role m = Tool) (zip_with toolMessage calls results).
Proof.
  revert results. induction calls as [|c calls IH]; intros [|r results];
    simpl; constructor; [done | apply IH].
Qed.

Lemma toolMessages_names (calls : list ToolCall) (results : list Value) :
  length results = length calls ->
  map name (zip_with toolMessage calls results)
  = map (fun toolCall => Some (function_name toolCall)) calls.
Proof.
  revert results. induction calls as [|c calls IH]; intros [|r results] Hlen;
    try done.
  simpl. f_equal. apply IH. simpl in Hlen. lia.
Qed.

(** C2: when a turn of the model returns N > 0 tool calls, the loop appends
    exactly N messages, one for each call in the order of the calls, each of
    the role [Tool], carrying the name of its call and a result, sends no
    request meanwhile, and the request of the next turn carries exactly the
    history with these N messages; when the turn returns no call the inner
    loop ends and the agent awaits the user.  So, over any run, the history
    only grows at its end, and every tool message comes after an assistant
    message that declared a call of that tool. *)
Theorem chat_tool_messages_in_order
    (World : Type)
    (implementation : OwnTool -> Args -> World -> Completion string * World)
    (typeError : string -> Args -> string)
    (parts : list Fragment) (replies : list StreamReply) (st : State World) :
  let calls := lastBatch parts in
  let st1 := (callAgent World (Stream parts) st).2 in
  let st2 := executeAll World implementation typeError calls st1 in
  let answer := fun (toolCall : ToolCall) (result : Value) =>
                  {| role := Tool; content := result; tool_calls := None;
                     name := Some (function_name toolCall) |} in
  (callAgent World (Stream parts) st).1 = Normal calls
  /\ (calls <> [] ->
      converse World implementation typeError (Stream parts :: replies) st
        = converse World implementation typeError replies st2
      /\ exists results : list Value,
           length results = length calls
           /\ messages st2 = messages st1 ++ zip_with answer calls results
           /\ length (zip_with answer calls results) = length calls
           /\ Forall (fun m => role m = Tool) (zip_with answer calls results)
           /\ map name (zip_with answer calls results)
              = map (fun toolCall => Some (function_name toolCall)) calls
           /\ requests st2 = requests st1
           /\ forall next : StreamReply,
                requests (callAgent World next st2).2
                = {| request_messages :=
                       messages st1 ++ zip_with answer calls results;
                     request_stream := true;
                     request_tools := Some tools |} :: requests st1)
  /\ (calls = [] ->
      converse World implementation typeError (Stream parts :: replies) st
        = (AwaitingUser, replies, st1))
  /\ (forall (inputs : list string) (turns : list StreamReply)
             (st0 : State World),
        let final := (chat World implementation typeError inputs turns st0).2 in
        messages st0 `prefix_of` messages final
        /\ (wellFormed (messages st0) = true ->
            wellFormed (messages final) = true
            /\ toolFollowsAssistant (messages final))).
Proof.
  intros calls st1 st2 answer. split; [by rewrite callAgent_Stream|]. split.
  - intros Hcalls. split; [by apply converse_calls|].
    destruct (executeAll_appends implementation typeError calls st1)
      as (results & Hlen & Hmsgs & Hreqs).
    exists results. fold st2 in Hmsgs, Hreqs.
    change (zip_with toolMessage calls results)
      with (zip_with answer calls results) in Hmsgs.
    split; [done|]. split; [done|]. split.
    { rewrite length_zip_with. lia. }
    split; [apply toolMessages_roles|].
    split; [by apply toolMessages_names|].
    split; [done|].
    intros next. rewrite <- Hmsgs, <- Hreqs.
    destruct next as [ps|ps message];
      [by rewrite callAgent_Stream | by rewrite callAgent_StreamFailure].
  - split; [by apply converse_break|].
    intros inputs turns st0. apply chat_history.
Qed.

Lemma chat_tool_messages_in_order_witness :
  lastBatch Scenario.firstTurn <> []
  /\ wellFormed initialMessages = true
  /\ (exists results : list Value,
        length results = 1
        /\ messages
             (executeAll _ Scenario.implementation Scenario.typeError
                (lastBatch Scenario.firstTurn)
                (callAgent _ (Stream Scenario.firstTurn)
                   (start initialMessages Scenario.project)).2)
           = messages (callAgent _ (Stream Scenario.firstTurn)
                         (start initialMessages Scenario.project)).2
               ++ zip_with
                    (fun (toolCall : ToolCall) (result : Value) =>
                       {| role := Tool; content := result; tool_calls := None;
                          name := Some (function_name toolCall) |})
                    (lastBatch Scenario.firstTurn) results)
  /\ wellFormed
       (messages (chat _ Scenario.implementation Scenario.typeError
                    Scenario.inputs Scenario.turns
                    (start initialMessages Scenario.project)).2) = true.
Proof.
  destruct (chat_tool_messages_in_order _ Scenario.implementation
              Scenario.typeError Scenario.firstTurn (tail Scenario.turns)
              (start initialMessages Scenario.project))
    as (_ & Hcalls & _ & Hrun).
  assert (Hne : lastBatch Scenario.firstTurn <> []) by discriminate.
  split; [exact Hne|]. split; [reflexivity|]. split.
  - destruct (Hcalls Hne) as (_ & results & Hlen & Hmsgs & _).
    exists results. split; [exact Hlen | exact Hmsgs].
  - apply (Hrun Scenario.inputs Scenario.turns
             (start initialMessages Scenario.project)).
    reflexivity.
Defined.

(** The scenario, run: the failure of the first edit is a tool message
    like any other, the loop goes on, and the second edit is done. *)
Example scenario_run :
  let final := chat _ Scenario.implementation Scenario.typeError
                 Scenario.inputs Scenario.turns
                 (start initialMessages Scenario.project) in
  final.1 = AwaitingUser
  /\ messages final.2
     = initialMessages
         ++ [ userMessage "add a TODO to readme.md";
              assistantMessage "I will edit it." [Scenario.firstTry];
              toolMessage Scenario.firstTry (Text oldStringNotFound);
              assistantMessage "" [Scenario.secondTry];
              toolMessage Scenario.secondTry
                (Text "File edited successfully at readme.md");
              assistantMessage "Done." [] ]
  /\ world final.2 = Fs.holding "readme.md" "# Project TODO".
Proof. repeat split; vm_compute; reflexivity. Qed.

(** ** The three agents compared *)

Section Variants.

Context {World : Type}.
Variable implementation : OwnTool -> Args -> World -> Completion string * World.
Variable typeError : string -> Args -> string.
Implicit Types (st : State World) (turns : list StreamReply).

Lemma fold_consumePlain (parts : list Fragment) (text : string) st :
  fold_left (consumePlain World) parts (text, st)
  = (text +:+ fullText parts,
     {| messages := messages st; world := world st;
        terminal := rev (map (fun p => Chunk (part_content p)) parts)
                      ++ terminal st;
        requests := requests st |}).
Proof.
  revert text st. induction parts as [|part parts IH]; intros text st.
  - simpl. rewrite app_empty_r. by destruct st.
  - cbn [fold_left]. unfold consumePlain at 2.
    rewrite IH, fullText_cons, <- app_assoc_s. simpl.
    by rewrite <- app_assoc.
Qed.

(** The non-streaming agent and the plain streaming agent, started on the
    same history, reach the same history and stop at the same point;
    they send the same histories to the backend. *)
Lemma chatNoStream_chatPlain (inputs : list string) turns st st' :
  messages st = messages st' ->
  map request_messages (requests st) = map request_messages (requests st') ->
  (chatNoStream World inputs (map oneShot turns) st).1
    = (chatPlain World inputs turns st').1
  /\ messages (chatNoStream World inputs (map oneShot turns) st).2
     = messages (chatPlain World inputs turns st').2
  /\ map request_messages
       (requests (chatNoStream World inputs (map oneShot turns) st).2)
     = map request_messages (requests (chatPlain World inputs turns st').2).
Proof.
  revert turns st st'. induction inputs as [|userInput inputs IH];
    intros turns st st' Hm Hr; [done|].
  destruct turns as [|reply turns]; cbn [chatNoStream chatPlain map].
  - simpl. by rewrite Hm.
  - destruct reply as [parts|parts message]; cbn [oneShot callChat negb].
    + rewrite fold_consumePlain. apply IH; simpl; by rewrite ?Hm, ?Hr.
    + rewrite fold_consumePlain. simpl. by rewrite Hm, Hr.
Qed.

(** Neither of them offers tools. *)
Lemma chatNoStream_no_tools (inputs : list string)
    (replies : list FetchReply) st :
  Forall (fun r => request_tools r = None) (requests st) ->
  Forall (fun r => request_tools r = None)
         (requests (chatNoStream World inputs replies st).2).
Proof.
  revert replies st. induction inputs as [|userInput inputs IH];
    intros replies st Hst; [done|].
  destruct replies as [|reply replies]; cbn [chatNoStream]; [done|].
  destruct reply as [ok statusText text|message]; cbn [callChat].
  - destruct ok; cbn [negb].
    + apply IH. simpl. by constructor.
    + simpl. by constructor.
  - simpl. by constructor.
Qed.

(** As long as no turn asks for a tool, the tool-augmented agent appends
    the same messages as the plain one. *)
Lemma chat_chatPlain (inputs : list string) turns st st' :
  Forall asksNoTool turns ->
  messages st = messages st' ->
  (chat World implementation typeError inputs turns st).1
    = (chatPlain World inputs turns st').1
  /\ messages (chat World implementation typeError inputs turns st).2
     = messages (chatPlain World inputs turns st').2.
Proof.
  revert turns st st'. induction inputs as [|userInput inputs IH];
    intros turns st st' Hturns Hm; [done|].
  destruct turns as [|reply turns]; cbn [chat chatPlain converse].
  - simpl. by rewrite Hm.
  - apply Forall_cons in Hturns as [Hreply Hturns].
    destruct reply as [parts|parts message].
    + simpl in Hreply. rewrite callAgent_Stream, Hreply, fold_consumePlain.
      apply IH; [done|]. simpl. by rewrite Hm.
    + rewrite callAgent_StreamFailure, fold_consumePlain. simpl.
      by rewrite Hm.
Qed.

End Variants.

(** C9, as the claim has it, fails: on a turn that asks for a tool, the
    tool-augmented streaming agent appends the assistant message with its
    call, the tool message and the message of the next turn, and offers
    the five descriptors; the non-streaming agent appends one assistant
    message and offers none. *)
Lemma nonstreaming_differs_on_tool_calls :
  let streaming := chat _ Scenario.implementation Scenario.typeError
                     Scenario.inputs Scenario.turns
                     (start [] Scenario.project) in
  let nonStreaming := chatNoStream _ Scenario.inputs
                        (map oneShot Scenario.turns)
                        (start [] Scenario.project) in
  length (messages streaming.2) = 6
  /\ messages nonStreaming.2
     = [ plainMessage User "add a TODO to readme.md";
         plainMessage Assistant "I will edit it." ]
  /\ messages streaming.2 <> messages nonStreaming.2
  /\ map request_tools (requests streaming.2)
     = [Some tools; Some tools; Some tools]
  /\ map request_tools (requests nonStreaming.2) = [None].
Proof.
  repeat split; try (vm_compute; reflexivity).
  intros H. apply (f_equal length) in H. vm_compute in H. discriminate H.
Qed.

(** What the non-streaming agent appends and sends. *)
Lemma chatNoStream_appends (World : Type)
    (allInputs : list string) (allTurns : list StreamReply)
    (inputs : list string) (turns : list StreamReply) (st : State World) :
  (forall u, u ∈ inputs -> u ∈ allInputs) ->
  (forall r, r ∈ turns -> r ∈ allTurns) ->
  exists (appended : list Message) (sent : list Request),
    messages (chatNoStream World inputs (map oneShot turns) st).2
      = messages st ++ appended
    /\ Forall (fun m =>
                (exists userInput : string,
                   userInput ∈ allInputs
                   /\ m = {| role := User; content := Text userInput;
                             tool_calls := None; name := None |})
                \/ (exists parts : list Fragment,
                      Stream parts ∈ allTurns
                      /\ m = {| role := Assistant;
                                content := Text (fullText parts);
                                tool_calls := None; name := None |}))
              appended
    /\ requests (chatNoStream World inputs (map oneShot turns) st).2
       = sent ++ requests st
    /\ Forall (fun r => request_tools r = None /\ request_stream r = false)
              sent.
Proof.
  revert turns st. induction inputs as [|userInput inputs IH];
    intros turns st Hinputs Hturns.
  - exists [], []. simpl. by rewrite app_nil_r.
  - assert (Huser : userInput ∈ allInputs)
      by (apply Hinputs, elem_of_cons; by left).
    assert (Hrest : forall u, u ∈ inputs -> u ∈ allInputs)
      by (intros u Hu; apply Hinputs, elem_of_cons; by right).
    destruct turns as [|reply turns]; cbn [chatNoStream map].
    + exists [plainMessage User userInput], []. simpl.
      split; [done|]. split; [|done].
      constructor; [|constructor]. left. by exists userInput.
    + assert (Hreply : reply ∈ allTurns)
        by (apply Hturns, elem_of_cons; by left).
      assert (Hlater : forall r, r ∈ turns -> r ∈ allTurns)
        by (intros r Hr; apply Hturns, elem_of_cons; by right).
      destruct reply as [parts|parts message]; cbn [oneShot callChat negb].
      * match goal with |- context [chatNoStream World inputs _ ?s] =>
          destruct (IH turns s Hrest Hlater)
            as (appended & sent & Hm & Hshape & Hr & Hsent)
        end.
        exists (plainMessage User userInput
                  :: plainMessage Assistant (fullText parts) :: appended),
               (sent ++ [ {| request_messages :=
                               messages st ++ [plainMessage User userInput];
                             request_stream := false;
                             request_tools := None |} ]).
        rewrite Hm, Hr. simpl. rewrite <- !app_assoc. simpl.
        split; [done|]. split; [|split; [done|]].
        -- constructor; [left; by exists userInput|].
           constructor; [right; by exists parts | done].
        -- apply Forall_app. split; [done|]. by repeat constructor.
      * exists [plainMessage User userInput],
               [ {| request_messages :=
                      messages st ++ [plainMessage User userInput];
                    request_stream := false; request_tools := None |} ].
        simpl. split; [done|]. split; [|split; [done|]].
        -- constructor; [|constructor]. left. by exists userInput.
        -- by repeat constructor.
Qed.

(** C9, amended: the non-streaming agent has the message semantics of the
    plain streaming agent: on the same inputs and the same turns of the
    backend (the whole text being the deltas put together, a failure being
    a failure) both append the same user and assistant messages in the same
    order, stop at the same point and send the same histories; what it
    appends is user messages holding a line typed and assistant messages
    holding the text of a reply, none with tool calls or a tool name, so
    never a tool message; every request it sends is without streaming and
    without tool descriptors; and it appends what the tool-augmented
    streaming agent appends as long as no turn asks for a tool. *)
Theorem nonstreaming_same_messages
    (World : Type)
    (implementation : OwnTool -> Args -> World -> Completion string * World)
    (typeError : string -> Args -> string)
    (inputs : list string) (turns : list StreamReply) (st : State World) :
  let nonStreaming := chatNoStream World inputs (map oneShot turns) st in
  let plain := chatPlain World inputs turns st in
  let augmented := chat World implementation typeError inputs turns st in
  nonStreaming.1 = plain.1
  /\ messages nonStreaming.2 = messages plain.2
  /\ map request_messages (requests nonStreaming.2)
     = map request_messages (requests plain.2)
  /\ (Forall (fun r => request_tools r = None) (requests st) ->
      Forall (fun r => request_tools r = None) (requests nonStreaming.2))
  /\ (Forall asksNoTool turns ->
      augmented.1 = nonStreaming.1
      /\ messages augmented.2 = messages nonStreaming.2)
  /\ (exists (appended : list Message) (sent : list Request),
        messages nonStreaming.2 = messages st ++ appended
        /\ Forall (fun m =>
                    (exists userInput : string,
                       userInput ∈ inputs
                       /\ m = {| role := User; content := Text userInput;
                                 tool_calls := None; name := None |})
                    \/ (exists parts : list Fragment,
                          Stream parts ∈ turns
                          /\ m = {| role := Assistant;
                                    content := Text (fullText parts);
                                    tool_calls := None; name := None |}))
                  appended
        /\ Forall (fun m => role m <> Tool) appended
        /\ requests nonStreaming.2 = sent ++ requests st
        /\ Forall (fun r => request_tools r = None
                            /\ request_stream r = false) sent).
Proof.
  intros nonStreaming plain augmented.
  destruct (chatNoStream_chatPlain inputs turns st st eq_refl eq_refl)
    as (Hc & Hm & Hr).
  split; [done|]. split; [done|]. split; [done|]. split.
  - by apply chatNoStream_no_tools.
  - split.
    + intros Hturns.
      destruct (chat_chatPlain implementation typeError inputs turns st st
                  Hturns eq_refl) as [Hc' Hm'].
      unfold augmented, nonStreaming. by rewrite Hc', Hm', Hc, Hm.
    + destruct (chatNoStream_appends World inputs turns inputs turns st)
        as (appended & sent & Happ & Hshape & Hreq & Hsent); [done|done|].
      exists appended, sent. repeat split; try done.
      eapply Forall_impl; [exact Hshape|].
      by intros m [(u & _ & ->)|(parts & _ & ->)].
Qed.

Lemma nonstreaming_same_messages_witness :
  let turns := [ Stream [ {| part_content := "Hel"; part_tool_calls := None |};
                          {| part_content := "lo."; part_tool_calls := None |} ] ] in
  Forall asksNoTool turns
  /\ messages (chat _ Scenario.implementation Scenario.typeError
                 ["hi"] turns (start [] Scenario.project)).2
     = messages (chatNoStream _ ["hi"] (map oneShot turns)
                   (start [] Scenario.project)).2
  /\ messages (chatNoStream _ ["hi"] (map oneShot turns)
                 (start [] Scenario.project)).2
     = [ plainMessage User "hi"; plainMessage Assistant "Hello." ].
Proof.
  intros turns.
  assert (Hturns : Forall asksNoTool turns).
  { constructor; [reflexivity | constructor]. }
  destruct (nonstreaming_same_messages _ Scenario.implementation
              Scenario.typeError ["hi"] turns (start [] Scenario.project))
    as (_ & _ & _ & _ & Hsame & _).
  split; [exact Hturns|]. split; [exact (proj2 (Hsame Hturns))|].
  reflexivity.
Defined.

(** * Further properties of the code *)

(** ** executeCommand and searchFileContents *)

(** X1: [executeCommand] never throws and gives exactly one of [data] and
    [errorCode]: the output when the command exits with status 0, neither
    output is larger than the buffer of [exec], and the command did not
    print error output alone; otherwise an error text that is never
    empty. *)
Theorem executeCommand_one_of_two
    (shell : string -> ProcessResult) (command : string) :
  let r := shell command in
  (executeCommand shell command = (Some (stdout r), None)
   /\ exitCode r = 0%Z
   /\ exceedsBuffer (stdout r) = false /\ exceedsBuffer (stderr r) = false
   /\ (stdout r <> "" \/ stderr r = ""))
  \/ (exists message : string,
        executeCommand shell command = (None, Some message)
        /\ message <> ""
        /\ (exitCode r <> 0%Z
            \/ exceedsBuffer (stdout r) = true
            \/ exceedsBuffer (stderr r) = true
            \/ (stdout r = "" /\ stderr r <> ""))).
Proof.
  intros r. unfold executeCommand, execAsync. fold r.
  destruct (exceedsBuffer (stdout r)) eqn:Hout1.
  { right. eexists. split; [done|]. split; [done|]. right. by left. }
  destruct (exceedsBuffer (stderr r)) eqn:Herr1.
  { right. eexists. split; [done|]. split; [done|]. right. right. by left. }
  destruct (Z.eqb_spec (exitCode r) 0) as [Hz|Hnz].
  - destruct (stderr r) as [|e err] eqn:Herr.
    + left. simpl. repeat split; try done. by right.
    + destruct (stdout r) as [|o out] eqn:Hout.
      * right. exists (String e err). simpl. repeat split; [done|].
        right. right. right. by split.
      * left. simpl. repeat split; try done. by left.
  - right. eexists. split; [done|]. split; [done|]. by left.
Qed.

(** X2: [searchFileContents] never throws, whatever the command does: it
    answers [No matches found.] when an output of the command is larger
    than the buffer of [exec], when the command exits with a status other
    than 0, or when it prints error output alone; otherwise it answers the
    output of the command, trimmed (the empty text when the command printed
    nothing at all). *)
Theorem searchFileContents_total
    (shell : string -> ProcessResult) (pattern searchPath : string)
    (globPattern : option string) (caseInsensitive : bool) :
  let r := shell (grepCommand pattern searchPath globPattern caseInsensitive) in
  searchFileContents shell pattern searchPath globPattern caseInsensitive
  = if exceedsBuffer (stdout r) || exceedsBuffer (stderr r)
       || negb (exitCode r =? 0)%Z
       || (Js.truthy (stderr r) && negb (Js.truthy (stdout r)))
    then Normal "No matches found."
    else Normal (Js.trim (stdout r)).
Proof.
  intros r. unfold searchFileContents, executeCommand, execAsync. fold r.
  destruct (exceedsBuffer (stdout r)); [done|].
  destruct (exceedsBuffer (stderr r)); [done|].
  destruct (Z.eqb_spec (exitCode r) 0) as [Hz|Hnz]; [|done]. simpl.
  destruct (stderr r) as [|e err]; simpl.
  - by destruct (stdout r).
  - by destruct (stdout r).
Qed.

(** ** editFile and createFile *)

Lemma join_codeUnits_empty (s : string) : Js.join (Js.codeUnits s) "" = s.
Proof.
  induction s as [|a s IH]; [done|]. cbn [Js.codeUnits]. unfold Js.join in *.
  by rewrite concat_empty_cons, IH.
Qed.

Lemma join_split_bounded (a : ascii) (sep : string) (n : nat) (s : string) :
  String.length s <= n ->
  Js.join (Js.split s (String a sep)) (String a sep) = s.
Proof.
  revert s. induction n as [|n IH]; intros s Hn; rewrite replaceAll_unfold;
    destruct (Js.search (String a sep) s) as [[p f]|] eqn:E; try done.
  - apply search_Some in E. subst s. rewrite !app_length_s in Hn.
    simpl in Hn. lia.
  - pose proof (search_Some _ _ _ _ E) as Hs.
    rewrite IH; [done|]. subst s. rewrite !app_length_s in Hn.
    simpl in Hn. lia.
Qed.

(** Splitting at a separator and joining with it gives the text back. *)
Lemma join_split (s sep : string) : Js.join (Js.split s sep) sep = s.
Proof.
  destruct sep as [|a sep]; [apply join_codeUnits_empty|].
  by apply (join_split_bounded a sep (String.length s)).
Qed.

Lemma disk_insert_same (disk : Fs.Disk) (filePath content : string) :
  Fs.files disk !! filePath = Some content ->
  {| Fs.files := <[filePath := content]> (Fs.files disk);
     Fs.locked := Fs.locked disk |} = disk.
Proof. intros H. destruct disk as [files locked]. simpl in *. by rewrite insert_id. Qed.

(** X4: replacing a text by itself changes nothing: with [newString] equal
    to [oldString], the [replaceAll] path reports success and leaves the
    file system as it was, and so does the first-occurrence path when the
    text holds no dollar sign. *)
Theorem editFile_same_text
    (disk : Fs.Disk) (filePath content text : string) :
  Fs.files disk !! filePath = Some content ->
  filePath ∉ Fs.locked disk ->
  occursIn text content ->
  editFile filePath text text true disk
    = ("File edited successfully at " +:+ filePath, disk)
  /\ (dollarFree text = true ->
      editFile filePath text text false disk
        = ("File edited successfully at " +:+ filePath, disk)).
Proof.
  intros Hfile Hfree Hin.
  pose proof (proj2 (includes_occursIn _ _) Hin) as Hinc.
  split.
  - unfold editFile, Fs.readFile. rewrite Hfile, Hinc. simpl.
    rewrite join_split, writeFile_unlocked by done.
    by rewrite disk_insert_same.
  - intros Hdollar. unfold editFile, Fs.readFile. rewrite Hfile, Hinc. simpl.
    rewrite replace_dollarFree, writeFile_unlocked by done.
    unfold replaceFirstLiterally.
    destruct (Js.search text content) as [[p f]|] eqn:E.
    + apply search_Some in E. rewrite <- E. by rewrite disk_insert_same.
    + by rewrite disk_insert_same.
Qed.

Lemma editFile_same_text_witness :
  editFile "f" "b" "b" true (Fs.holding "f" "abc")
    = ("File edited successfully at f", Fs.holding "f" "abc")
  /\ editFile "f" "b" "b" false (Fs.holding "f" "abc")
    = ("File edited successfully at f", Fs.holding "f" "abc").
Proof.
  assert (Hin : occursIn "b" "abc") by (by exists "a", "c").
  assert (Hfree : "f" ∉ Fs.locked (Fs.holding "f" "abc"))
    by apply not_elem_of_empty.
  destruct (editFile_same_text (Fs.holding "f" "abc") "f" "abc" "b"
              eq_refl Hfree Hin) as [Hall Hfirst].
  split; [exact Hall | exact (Hfirst eq_refl)].
Defined.

Lemma search_absent (sub s : string) :
  ~ occursIn sub s -> Js.search sub s = None.
Proof.
  intros H. destruct (Js.search sub s) as [[p f]|] eqn:E; [|done].
  destruct H. exists p, f. by apply search_Some.
Qed.

(** X5: when [oldString] is not empty and occurs once only, the two modes
    of [editFile] write the same content, provided [newString] holds no
    dollar sign. *)
Theorem editFile_single_occurrence
    (disk : Fs.Disk) (filePath content newString : string)
    (a : ascii) (old preceding following : string) :
  Fs.files disk !! filePath = Some content ->
  Js.search (String a old) content = Some (preceding, following) ->
  ~ occursIn (String a old) following ->
  dollarFree newString = true ->
  editFile filePath (String a old) newString true disk
  = editFile filePath (String a old) newString false disk
  /\ (filePath ∉ Fs.locked disk ->
      Fs.files (editFile filePath (String a old) newString true disk).2
        !! filePath
      = Some (preceding +:+ newString +:+ following)).
Proof.
  intros Hfile Hsearch Hrest Hdollar.
  assert (Hnew : Js.join (Js.split content (String a old)) newString
                 = preceding +:+ newString +:+ following).
  { rewrite replaceAll_unfold, Hsearch, split_unfold.
    by rewrite (search_absent _ _ Hrest). }
  assert (Hfirst : Js.replace content (String a old) newString
                   = preceding +:+ newString +:+ following).
  { rewrite replace_dollarFree by done. unfold replaceFirstLiterally.
    by rewrite Hsearch. }
  unfold editFile, Fs.readFile. rewrite Hfile. unfold Js.includes.
  rewrite Hsearch. cbn [negb]. rewrite Hnew, Hfirst. split; [done|].
  intros Hfree. rewrite writeFile_unlocked by done. simpl.
  by rewrite lookup_insert_eq.
Qed.

Lemma editFile_single_occurrence_witness :
  editFile "f" "b" "X" true (Fs.holding "f" "abc")
  = editFile "f" "b" "X" false (Fs.holding "f" "abc")
  /\ Fs.files (editFile "f" "b" "X" true (Fs.holding "f" "abc")).2 !! "f"
     = Some "aXc".
Proof.
  assert (Hrest : ~ occursIn "b" "c").
  { intros H. apply includes_occursIn in H. vm_compute in H. discriminate H. }
  destruct (editFile_single_occurrence (Fs.holding "f" "abc") "f" "abc" "X"
              "b" "" "a" "c" eq_refl eq_refl Hrest eq_refl) as [Hsame Hcontent].
  split; [exact Hsame|]. apply Hcontent. apply not_elem_of_empty.
Defined.

(** X8: creating a file and then replacing every occurrence of a text in
    it leaves the file system that creating the file with the replaced
    content leaves. *)
Theorem createFile_then_editFile
    (disk : Fs.Disk) (filePath content newString : string)
    (a : ascii) (old : string) :
  filePath ∉ Fs.locked disk ->
  occursIn (String a old) content ->
  (editFile filePath (String a old) newString true
     (createFile filePath content disk).2).2
  = (createFile filePath
       (Js.join (Js.split content (String a old)) newString) disk).2.
Proof.
  intros Hfree Hin. unfold createFile. rewrite !writeFile_unlocked by done.
  cbn [snd]. rewrite (editFile_replaceAll _ filePath content); try done.
  - simpl. by rewrite insert_insert_eq.
  - simpl. by rewrite lookup_insert_eq.
Qed.

Lemma createFile_then_editFile_witness :
  (editFile "f" "o" "0" true (createFile "f" "foo" (Fs.holding "g" "x")).2).2
  = (createFile "f" "f00" (Fs.holding "g" "x")).2.
Proof.
  assert (Hin : occursIn "o" "foo") by (by exists "f", "o").
  apply (createFile_then_editFile (Fs.holding "g" "x") "f" "foo" "0" "o" ""
           (not_elem_of_empty _) Hin).
Defined.

(** ** readFile *)

(** What [readFile] returns on a file that is there, for an offset from 1
    on. *)
Lemma readFile_window
    (disk : Fs.Disk) (filePath content : string) (offset limit : Z) :
  Fs.files disk !! filePath = Some content ->
  (1 <= offset)%Z -> (0 <= limit)%Z ->
  readFile filePath offset limit disk
  = Js.join
      (imap (fun index line => numbered (offset + Z.of_nat index) line)
            (take (Z.to_nat limit)
                  (drop (Z.to_nat (offset - 1)) (Js.split content LF))))
      LF.
Proof.
  intros Hfile Ho Hn. unfold readFile, Fs.readFile. rewrite Hfile.
  by rewrite slice_from by lia.
Qed.

Lemma join_app (l1 l2 : list string) (sep : string) :
  l1 <> [] -> l2 <> [] ->
  Js.join (l1 ++ l2) sep = Js.join l1 sep +:+ sep +:+ Js.join l2 sep.
Proof.
  intros H1 H2. induction l1 as [|x l1 IH]; [done|].
  destruct l1 as [|y l1].
  - change ([x] ++ l2) with (x :: l2). by rewrite join_cons.
  - rewrite <- app_comm_cons, join_cons by done.
    rewrite IH by done. rewrite (join_cons x) by done.
    by rewrite !app_assoc_s.
Qed.

(** X9: reading a file in two windows, the second starting where the first
    ends, gives the two halves of what one window over both gives: when
    neither window is empty, the text of the large window is the texts of
    the two small ones with a line feed between them. *)
Theorem readFile_consecutive_windows
    (disk : Fs.Disk) (filePath content : string) (offset first second : Z) :
  Fs.files disk !! filePath = Some content ->
  (1 <= offset)%Z -> (1 <= first)%Z -> (1 <= second)%Z ->
  (offset - 1 + first < Z.of_nat (length (Js.split content LF)))%Z ->
  readFile filePath offset (first + second) disk
  = readFile filePath offset first disk +:+ LF
      +:+ readFile filePath (offset + first) second disk.
Proof.
  intros Hfile Ho H1 H2 Hlen.
  rewrite !(readFile_window disk filePath content) by (done || lia).
  set (lines := Js.split content LF) in *.
  replace (Z.to_nat (first + second))
    with (Z.to_nat first + Z.to_nat second) by lia.
  rewrite <- take_take_drop, drop_drop, imap_app.
  replace (Z.to_nat (offset + first - 1))
    with (Z.to_nat (offset - 1) + Z.to_nat first) by lia.
  assert (Hfirst : length (take (Z.to_nat first)
                            (drop (Z.to_nat (offset - 1)) lines))
                   = Z.to_nat first).
  { rewrite length_take, length_drop. lia. }
  rewrite join_app.
  - f_equal. f_equal. f_equal. apply imap_ext. intros i line _. simpl.
    rewrite Hfirst. f_equal. lia.
  - intros Hnil. apply (f_equal length) in Hnil.
    rewrite length_imap, Hfirst in Hnil. simpl in Hnil. lia.
  - intros Hnil. apply (f_equal length) in Hnil.
    rewrite length_imap, length_take, length_drop in Hnil.
    simpl in Hnil. lia.
Qed.

Lemma readFile_consecutive_windows_witness :
  let content := "a" +:+ LF +:+ "b" +:+ LF +:+ "c" +:+ LF +:+ "d" in
  readFile "f" 2 3 (Fs.holding "f" content)
  = readFile "f" 2 1 (Fs.holding "f" content) +:+ LF
      +:+ readFile "f" 3 2 (Fs.holding "f" content).
Proof.
  intros content.
  apply (readFile_consecutive_windows (Fs.holding "f" content) "f" content
           2 1 2 eq_refl); [lia | lia | lia | vm_compute; reflexivity].
Defined.

(** X10: offset 0 is taken as slice index -1: when [limit] is larger than
    the number of lines, [readFile] returns the last line alone, behind the
    number 0; otherwise it returns the empty text. *)
Theorem readFile_offset_zero
    (disk : Fs.Disk) (filePath content : string) (limit : Z) :
  Fs.files disk !! filePath = Some content ->
  (0 <= limit)%Z ->
  readFile filePath 0 limit disk
  = if (Z.of_nat (length (Js.split content LF)) <? limit)%Z
    then "0 | " +:+ default "" (last (Js.split content LF))
    else "".
Proof.
  intros Hfile Hlimit. unfold readFile, Fs.readFile. rewrite Hfile.
  pose proof (split_not_nil "010" "" content) as Hne. fold LF in Hne.
  set (lines := Js.split content LF) in *.
  assert (Hlen : 0 < length lines) by (destruct lines; [done | simpl; lia]).
  unfold slice. cbn [Z.sub Z.opp Z.add Z.ltb Z.compare].
  change (0 - 1)%Z with (-1)%Z. cbn [Z.ltb Z.compare].
  rewrite !Z.max_l by lia.
  replace (Z.to_nat (Z.of_nat (length lines) + -1))
    with (pred (length lines)) by lia.
  destruct (Z.ltb_spec (Z.of_nat (length lines)) limit) as [Hbig|Hsmall].
  - destruct (Z.ltb_spec (-1 + limit) 0) as [?|_]; [lia|].
    rewrite Z.min_r by lia.
    replace (Z.to_nat (Z.of_nat (length lines)
                       - (Z.of_nat (length lines) + -1))) with 1 by lia.
    rewrite last_lookup.
    destruct (lines !! pred (length lines)) as [line|] eqn:Hlast.
    + rewrite (drop_S _ line) by done. reflexivity.
    + apply lookup_ge_None in Hlast. lia.
  - destruct (Z.ltb_spec (-1 + limit) 0) as [?|_].
    + replace (Z.to_nat (Z.of_nat (length lines) + (-1 + limit)
                         - (Z.of_nat (length lines) + -1))) with 0 by lia.
      reflexivity.
    + rewrite Z.min_l by lia.
      replace (Z.to_nat (-1 + limit - (Z.of_nat (length lines) + -1)))
        with 0 by lia.
      reflexivity.
Qed.

Lemma readFile_offset_zero_witness :
  readFile "f" 0 2000 (Fs.holding "f" ("a" +:+ LF +:+ "b")) = "0 | b"
  /\ readFile "f" 0 2 (Fs.holding "f" ("a" +:+ LF +:+ "b")) = "".
Proof.
  split.
  - rewrite (readFile_offset_zero (Fs.holding "f" ("a" +:+ LF +:+ "b"))
               "f" ("a" +:+ LF +:+ "b") 2000 eq_refl) by lia.
    reflexivity.
  - rewrite (readFile_offset_zero (Fs.holding "f" ("a" +:+ LF +:+ "b"))
               "f" ("a" +:+ LF +:+ "b") 2 eq_refl) by lia.
    reflexivity.
Defined.

Lemma isLine_app (s t : string) :
  isLine (s +:+ t) = isLine s && isLine t.
Proof.
  induction s as [|c s IH]; [done|]. rewrite app_String. simpl.
  by rewrite IH, andb_assoc.
Qed.

Lemma search_LF_preceding (s preceding following : string) :
  Js.search LF s = Some (preceding, following) -> isLine preceding = true.
Proof.
  revert preceding. induction s as [|c s IH]; intros preceding;
    rewrite search_unfold; [done|].
  unfold LF at 1. cbn [Js.stripPrefix].
  destruct (Ascii.eqb_spec "010" c) as [<-|Hc].
  - by intros [= <- <-].
  - destruct (Js.search LF s) as [[p f]|]; [|done]. intros [= <- <-].
    simpl. rewrite (IH p eq_refl), andb_true_r.
    apply negb_true_iff. by apply Ascii.eqb_neq.
Qed.

Lemma search_LF_none (s : string) :
  Js.search LF s = None -> isLine s = true.
Proof.
  induction s as [|c s IH]; [done|]. rewrite search_unfold.
  unfold LF at 1. cbn [Js.stripPrefix].
  destruct (Ascii.eqb_spec "010" c) as [<-|Hc]; [done|].
  destruct (Js.search LF s) as [[p f]|]; [done|]. intros _. simpl.
  rewrite IH by done. rewrite andb_true_r.
  apply negb_true_iff. by apply Ascii.eqb_neq.
Qed.

Lemma split_LF_lines_bounded (n : nat) (s : string) :
  String.length s <= n -> forallb isLine (Js.split s LF) = true.
Proof.
  revert s. induction n as [|n IH]; intros s Hn; unfold LF at 1;
    rewrite split_unfold; fold LF;
    destruct (Js.search LF s) as [[p f]|] eqn:E; simpl.
  - apply search_Some in E. subst s. rewrite !app_length_s in Hn.
    simpl in Hn. lia.
  - by rewrite search_LF_none.
  - rewrite (search_LF_preceding _ _ _ E). simpl. apply IH.
    apply search_Some in E. subst s. rewrite !app_length_s in Hn.
    simpl in Hn. lia.
  - by rewrite search_LF_none.
Qed.

(** The parts [split] cuts at line feeds hold no line feed. *)
Lemma split_LF_lines (s : string) : forallb isLine (Js.split s LF) = true.
Proof. by apply (split_LF_lines_bounded (String.length s)). Qed.

Lemma pretty_N_go_isLine (x : N) (s : string) :
  isLine s = true -> isLine (pretty_N_go x s) = true.
Proof.
  revert s. induction (N.lt_wf_0 x) as [x _ IH]; intros s Hs.
  assert (x = 0 \/ 0 < x)%N as [->|Hpos] by lia.
  - by rewrite pretty_N_go_0.
  - rewrite pretty_N_go_step by done. apply IH.
    { by apply N.div_lt. }
    simpl. rewrite Hs, andb_true_r. unfold pretty_N_char.
    by repeat case_match.
Qed.

Lemma pretty_Z_isLine (n : Z) : isLine (pretty n) = true.
Proof.
  assert (HN : forall x : N, isLine (pretty x) = true).
  { intros x. unfold pretty, pretty_N. case_decide; [done|].
    by apply pretty_N_go_isLine. }
  destruct n as [|p|p]; [done|apply HN|].
  unfold pretty, pretty_Z. rewrite isLine_app. simpl. apply HN.
Qed.

Lemma numbered_isLine (n : Z) (line : string) :
  isLine line = true -> isLine (numbered n line) = true.
Proof.
  intros H. unfold numbered. rewrite !isLine_app, pretty_Z_isLine, H.
  reflexivity.
Qed.

Lemma imap_numbered_lines (offset : Z) (lines : list string) :
  forallb isLine lines = true ->
  forallb isLine
    (imap (fun index line => numbered (offset + Z.of_nat index) line) lines)
  = true.
Proof.
  revert offset. induction lines as [|line lines IH]; intros offset H; [done|].
  simpl in H. apply andb_true_iff in H as [Hline Hrest].
  rewrite imap_cons. simpl. rewrite numbered_isLine by done. simpl.
  rewrite (imap_ext _ (fun index l => numbered (offset + 1 + Z.of_nat index) l)).
  - by apply IH.
  - intros i l _. simpl. f_equal. lia.
Qed.

Lemma forallb_take_drop (lines : list string) (n k : nat) :
  forallb isLine lines = true ->
  forallb isLine (take n (drop k lines)) = true.
Proof.
  intros H. apply forallb_forall. intros l Hl.
  rewrite forallb_forall in H. apply H.
  apply list_elem_of_In. apply list_elem_of_In in Hl.
  by apply (subseteq_drop k), (subseteq_take n).
Qed.

(** X11: what [readFile] returns can be cut back into its lines: from an
    offset inside the file and a limit of at least 1, splitting the result
    at line feeds gives exactly the selected lines, each behind its number,
    and there are as many as the limit allows and the file has from the
    offset on. *)
Theorem readFile_lines_back
    (disk : Fs.Disk) (filePath content : string) (offset limit : Z) :
  Fs.files disk !! filePath = Some content ->
  (1 <= offset)%Z -> (1 <= limit)%Z ->
  (offset <= Z.of_nat (length (Js.split content LF)))%Z ->
  Js.split (readFile filePath offset limit disk) LF
  = imap (fun index line => numbered (offset + Z.of_nat index) line)
         (take (Z.to_nat limit)
               (drop (Z.to_nat (offset - 1)) (Js.split content LF)))
  /\ Z.of_nat (length (Js.split (readFile filePath offset limit disk) LF))
     = Z.min limit (Z.of_nat (length (Js.split content LF)) - offset + 1).
Proof.
  intros Hfile Ho Hn Hin.
  rewrite (readFile_window disk filePath content) by (done || lia).
  set (window := take (Z.to_nat limit)
                      (drop (Z.to_nat (offset - 1)) (Js.split content LF))).
  assert (Hlen : Z.of_nat (length window)
                 = Z.min limit
                     (Z.of_nat (length (Js.split content LF)) - offset + 1)).
  { unfold window. rewrite length_take, length_drop. lia. }
  assert (Hsplit :
    Js.split
      (Js.join (imap (fun index line => numbered (offset + Z.of_nat index) line)
                     window) LF) LF
    = imap (fun index line => numbered (offset + Z.of_nat index) line) window).
  { destruct (imap _ window) as [|l ls] eqn:E.
    - apply (f_equal length) in E. rewrite length_imap in E. simpl in E. lia.
    - apply split_join_lines. rewrite <- E. apply imap_numbered_lines.
      apply forallb_take_drop, split_LF_lines. }
  split; [done|]. by rewrite Hsplit, length_imap.
Qed.

Lemma readFile_lines_back_witness :
  let content := "a" +:+ LF +:+ "b" +:+ LF +:+ "c" in
  Js.split (readFile "f" 2 5 (Fs.holding "f" content)) LF = ["2 | b"; "3 | c"].
Proof.
  intros content.
  destruct (readFile_lines_back (Fs.holding "f" content) "f" content 2 5
              eq_refl) as [Hlines _];
    [lia | lia | vm_compute; discriminate |].
  rewrite Hlines. reflexivity.
Defined.

(** ** callAgent, executeTool and the loop *)

(** X12: during a turn that completes, [callAgent] writes the label, then
    every text delta as it arrives and in the order of arrival, then a
    line feed; the request it sends carries the history as it stood before
    the reply, with streaming on and the five tool descriptors; the world
    of the tools is not touched. *)
Theorem callAgent_live_output (World : Type) (parts : list Fragment)
    (st : State World) :
  rev (terminal (callAgent World (Stream parts) st).2)
  = rev (terminal st)
      ++ [AgentLabel] ++ map (fun p => Chunk (part_content p)) parts
      ++ [Newline]
  /\ requests (callAgent World (Stream parts) st).2
     = {| request_messages := messages st; request_stream := true;
          request_tools := Some tools |} :: requests st
  /\ world (callAgent World (Stream parts) st).2 = world st.
Proof.
  rewrite callAgent_Stream. simpl. split; [|done].
  rewrite rev_app_distr. simpl. rewrite rev_involutive.
  by rewrite <- !app_assoc.
Qed.

(** X13: when the call to the backend or the stream fails, [callAgent]
    throws the error and appends no message: the history is as it was,
    although the request was sent and the deltas that had arrived were
    written. *)
Theorem callAgent_failure (World : Type) (parts : list Fragment)
    (message : string) (st : State World) :
  (callAgent World (StreamFailure parts message) st).1 = Throw message
  /\ messages (callAgent World (StreamFailure parts message) st).2
     = messages st
  /\ rev (terminal (callAgent World (StreamFailure parts message) st).2)
     = rev (terminal st)
         ++ [AgentLabel] ++ map (fun p => Chunk (part_content p)) parts
  /\ requests (callAgent World (StreamFailure parts message) st).2
     = {| request_messages := messages st; request_stream := true;
          request_tools := Some tools |} :: requests st.
Proof.
  rewrite callAgent_StreamFailure. simpl. repeat split.
  rewrite rev_app_distr. simpl. rewrite rev_involutive.
  by rewrite <- !app_assoc.
Qed.

Section RegistryMore.

Context {World : Type}.
Variable implementation : OwnTool -> Args -> World -> Completion string * World.
Variable typeError : string -> Args -> string.
Implicit Types (st : State World) (toolCall : ToolCall).

Local Abbreviation runTool := (executeTool World implementation typeError).
Local Abbreviation runAll := (executeAll World implementation typeError).
Local Abbreviation talk := (converse World implementation typeError).
Local Abbreviation run := (chat World implementation typeError).

(** X14: [executeTool] writes one trace line, the name and the arguments
    of the call, before anything else, and touches neither the history nor
    the requests; unless the name is one of the five tools, the world of
    the tools is as it was. *)
Theorem executeTool_trace_and_frame toolCall st :
  terminal (runTool toolCall st).2
  = ToolTrace (function_name toolCall) (function_arguments toolCall)
      :: terminal st
  /\ messages (runTool toolCall st).2 = messages st
  /\ requests (runTool toolCall st).2 = requests st
  /\ (ownTool (function_name toolCall) = None ->
      world (runTool toolCall st).2 = world st).
Proof.
  unfold executeTool, availableTools.
  destruct (ownTool (function_name toolCall)) as [t|] eqn:Hown.
  - cbn. destruct (implementation _ _ _) as [[text|message] w]; by cbn.
  - destruct (inherited (function_name toolCall)) as [[| | |]|]; by cbn.
Qed.

(** X16: the calls of a batch are run one after the other: running a
    batch made of two parts is running the first part and then the second
    on the state the first one leaves; and a batch of N calls makes the
    history N messages longer. *)
Theorem executeAll_app (calls1 calls2 : list ToolCall) st :
  runAll (calls1 ++ calls2) st = runAll calls2 (runAll calls1 st)
  /\ length (messages (runAll calls1 st))
     = length (messages st) + length calls1.
Proof.
  split.
  - revert st. induction calls1 as [|toolCall calls1 IH]; intros st; [done|].
    cbn [executeAll app]. destruct (runTool toolCall st) as [result st1].
    apply IH.
  - destruct (executeAll_appends implementation typeError calls1 st)
      as (results & Hlen & Hmsgs & _).
    rewrite Hmsgs, length_app, length_zip_with. lia.
Qed.

End RegistryMore.

Lemma executeTool_trace_and_frame_witness :
  let toolCall := {| function_name := "listFiles"; function_arguments := [] |} in
  let st := start initialMessages Scenario.project in
  ownTool "listFiles" = None
  /\ world (executeTool _ Scenario.implementation Scenario.typeError
              toolCall st).2 = Scenario.project
  /\ terminal (executeTool _ Scenario.implementation Scenario.typeError
                 toolCall st).2 = [ToolTrace "listFiles" []].
Proof.
  intros toolCall st.
  destruct (executeTool_trace_and_frame Scenario.implementation
              Scenario.typeError toolCall st) as (Htrace & _ & _ & Hworld).
  split; [reflexivity|]. split; [exact (Hworld eq_refl) | exact Htrace].
Defined.

Section LoopMore.

Context {World : Type}.
Variable implementation : OwnTool -> Args -> World -> Completion string * World.
Variable typeError : string -> Args -> string.
Implicit Types (st : State World) (replies : list StreamReply).

Local Abbreviation runTool := (executeTool World implementation typeError).
Local Abbreviation runAll := (executeAll World implementation typeError).
Local Abbreviation talk := (converse World implementation typeError).
Local Abbreviation run := (chat World implementation typeError).

(** X17: the world of the tools changes through tool calls only: over a
    run in which no turn of the model asks for a tool, it is at the end
    what it was at the start. *)
Theorem chat_world_untouched (inputs : list string) replies st :
  Forall asksNoTool replies ->
  world (run inputs replies st).2 = world st.
Proof.
  revert replies st. induction inputs as [|userInput inputs IH];
    intros replies st Hreplies; [done|].
  destruct replies as [|reply replies]; cbn [chat converse]; [done|].
  apply Forall_cons in Hreplies as [Hreply Hreplies].
  destruct reply as [parts|parts message].
  - simpl in Hreply. rewrite callAgent_Stream, Hreply.
    by rewrite IH.
  - by rewrite callAgent_StreamFailure.
Qed.

Lemma filter_toolMessages (calls : list ToolCall) (results : list Value) :
  List.filter isUser (zip_with toolMessage calls results) = [].
Proof.
  revert results. induction calls as [|c calls IH]; intros [|r results];
    try done. simpl. apply IH.
Qed.

Lemma converse_users replies st :
  List.filter isUser (messages (talk replies st).2)
  = List.filter isUser (messages st).
Proof.
  revert st. induction replies as [|reply replies IH]; intros st; [done|].
  destruct reply as [parts|parts message].
  - destruct (lastBatch parts) as [|c calls] eqn:Hcalls.
    + rewrite converse_break by done. rewrite callAgent_Stream. cbn [snd messages].
      rewrite List.filter_app. simpl. by rewrite app_nil_r.
    + rewrite converse_calls by (by rewrite Hcalls).
      rewrite IH, callAgent_Stream. cbn [snd].
      match goal with |- context [runAll ?cs ?s] =>
        destruct (executeAll_appends implementation typeError cs s)
          as (results & _ & Hmsgs & _)
      end.
      rewrite Hmsgs. cbn [messages].
      rewrite !List.filter_app, filter_toolMessages. simpl.
      by rewrite !app_nil_r.
  - cbn [converse]. by rewrite callAgent_StreamFailure.
Qed.

(** X18: what the user types enters the history as it is, the empty line
    included, and in the order typed: the user messages of the final
    history are those of the history at the start followed by one message
    for each line the run took, and it took them all when it ends awaiting
    the user. *)
Theorem chat_user_messages (inputs : list string) replies st :
  exists taken : nat,
    taken <= length inputs
    /\ List.filter isUser (messages (run inputs replies st).2)
       = List.filter isUser (messages st)
           ++ map userMessage (take taken inputs)
    /\ ((run inputs replies st).1 = AwaitingUser -> taken = length inputs).
Proof.
  revert replies st. induction inputs as [|userInput inputs IH];
    intros replies st.
  - exists 0. simpl. by rewrite app_nil_r.
  - cbn [chat].
    match goal with |- context [talk replies ?s] =>
      pose proof (converse_users replies s) as Husers;
      destruct (talk replies s) as [[control replies'] st1] eqn:E
    end.
    cbn [snd messages push] in Husers.
    rewrite List.filter_app in Husers. simpl in Husers.
    destruct control.
    + destruct (IH replies' st1) as (taken & Hle & Hfilter & Hall).
      exists (S taken). split; [simpl; lia|]. split.
      * rewrite Hfilter, Husers. simpl. by rewrite <- app_assoc.
      * intros Hc. simpl. f_equal. by apply Hall.
    + exists 1. split; [simpl; lia|]. split; [|done].
      simpl. rewrite ?take_0. exact Husers.
    + exists 1. split; [simpl; lia|]. split; [|done].
      simpl. rewrite ?take_0. exact Husers.
Qed.

Lemma requestsArePrefixes_push (m : Message) st :
  requestsArePrefixes st -> requestsArePrefixes (push m st).
Proof.
  unfold requestsArePrefixes. simpl. intros H.
  eapply Forall_impl; [exact H|]. intros r Hr. by apply prefix_app_r.
Qed.

Lemma requestsArePrefixes_same st st' :
  messages st' = messages st -> requests st' = requests st ->
  requestsArePrefixes st -> requestsArePrefixes st'.
Proof. unfold requestsArePrefixes. by intros -> ->. Qed.

Lemma requestsArePrefixes_callAgent (reply : StreamReply) st :
  requestsArePrefixes st -> requestsArePrefixes (callAgent World reply st).2.
Proof.
  intros H. destruct reply as [parts|parts message].
  - rewrite callAgent_Stream. unfold requestsArePrefixes in *. simpl.
    constructor; [by apply prefix_app_r|].
    eapply Forall_impl; [exact H|]. intros r Hr. by apply prefix_app_r.
  - rewrite callAgent_StreamFailure. unfold requestsArePrefixes in *. simpl.
    by constructor.
Qed.

Lemma requestsArePrefixes_executeAll (calls : list ToolCall) st :
  requestsArePrefixes st -> requestsArePrefixes (runAll calls st).
Proof.
  intros H.
  destruct (executeAll_appends implementation typeError calls st)
    as (results & _ & Hmsgs & Hreqs).
  unfold requestsArePrefixes in *. rewrite Hmsgs, Hreqs.
  eapply Forall_impl; [exact H|]. intros r Hr. by apply prefix_app_r.
Qed.

Lemma requestsArePrefixes_converse replies st :
  requestsArePrefixes st -> requestsArePrefixes (talk replies st).2.
Proof.
  revert st. induction replies as [|reply replies IH]; intros st H; [done|].
  cbn [converse].
  pose proof (requestsArePrefixes_callAgent reply st H) as Hcall.
  destruct (callAgent World reply st) as [[[|c calls]|message] st1]; try done.
  by apply IH, requestsArePrefixes_executeAll.
Qed.

(** X19: the backend is only ever sent the history as it stands, and the
    history is never cut back afterwards: if every request sent before a
    run carries a history that the present history starts with, so does
    every request sent by the end of the run. *)
Theorem chat_requests_are_prefixes (inputs : list string) replies st :
  requestsArePrefixes st ->
  requestsArePrefixes (run inputs replies st).2.
Proof.
  revert replies st. induction inputs as [|userInput inputs IH];
    intros replies st H; [done|].
  cbn [chat].
  match goal with |- context [talk replies ?s] =>
    assert (Hs : requestsArePrefixes s)
      by (by apply requestsArePrefixes_push);
    pose proof (requestsArePrefixes_converse replies s Hs) as Hconv;
    destruct (talk replies s) as [[control replies'] st1]
  end.
  destruct control; [by apply IH | done | done].
Qed.

End LoopMore.

Lemma chat_world_untouched_witness :
  let turns := [ Stream [ {| part_content := "Hello."; part_tool_calls := None |} ] ] in
  Forall asksNoTool turns
  /\ world (chat _ Scenario.implementation Scenario.typeError ["hi"] turns
              (start initialMessages Scenario.project)).2
     = Scenario.project.
Proof.
  intros turns.
  assert (Hturns : Forall asksNoTool turns).
  { constructor; [reflexivity | constructor]. }
  split; [exact Hturns|].
  exact (chat_world_untouched Scenario.implementation Scenario.typeError
           ["hi"] turns (start initialMessages Scenario.project) Hturns).
Defined.

Lemma chat_user_messages_witness :
  exists taken : nat,
    taken <= 2
    /\ List.filter isUser
         (messages (chat _ Scenario.implementation Scenario.typeError
                      [""; "again"] Scenario.turns
                      (start initialMessages Scenario.project)).2)
       = map userMessage (take taken [""; "again"]).
Proof.
  destruct (chat_user_messages Scenario.implementation Scenario.typeError
              [""; "again"] Scenario.turns
              (start initialMessages Scenario.project))
    as (taken & Hle & Hfilter & _).
  exists taken. split; [exact Hle | exact Hfilter].
Defined.

Lemma chat_requests_are_prefixes_witness :
  requestsArePrefixes (start initialMessages Scenario.project)
  /\ requestsArePrefixes
       (chat _ Scenario.implementation Scenario.typeError
          Scenario.inputs Scenario.turns
          (start initialMessages Scenario.project)).2.
Proof.
  assert (Hstart : requestsArePrefixes (start initialMessages Scenario.project))
    by constructor.
  split; [exact Hstart|].
  exact (chat_requests_are_prefixes Scenario.implementation Scenario.typeError
           Scenario.inputs Scenario.turns _ Hstart).
Defined.

(** ** The plain streaming agent and the non-streaming agent *)

(** X20: when the backend answers with a status that is not a success,
    the non-streaming agent stops with the error [Ollama API Error:] and the
    status text: the line of the user is in the history, no reply is, the
    request has gone out without streaming and without tools, and the
    lines typed after it are not asked for. *)
Theorem chatNoStream_not_ok (World : Type) (userInput : string)
    (inputs : list string) (statusText message_content : string)
    (replies : list FetchReply) (st : State World) :
  let final := chatNoStream World (userInput :: inputs)
                 (Response false statusText message_content :: replies) st in
  final.1 = Failed ("Ollama API Error: " +:+ statusText)
  /\ messages final.2 = messages st ++ [plainMessage User userInput]
  /\ requests final.2
     = {| request_messages := messages st ++ [plainMessage User userInput];
          request_stream := false; request_tools := None |} :: requests st
  /\ terminal final.2 = Prompt :: terminal st.
Proof. done. Qed.

(** X21: with a successful answer for every line, the non-streaming agent
    builds the history by turns: after the history at the start come, for
    each line in order, the message of the user and the message of the
    assistant with the content of the answer; the agent then awaits the
    user, having sent one request for each line. *)
Theorem chatNoStream_history (World : Type) (inputs contents : list string)
    (statusText : string) (st : State World) :
  length inputs <= length contents ->
  let final := chatNoStream World inputs
                 (map (Response true statusText) contents) st in
  final.1 = AwaitingUser
  /\ messages final.2
     = messages st
         ++ concat (zip_with (fun userInput response =>
                                [ plainMessage User userInput;
                                  plainMessage Assistant response ])
                             inputs contents)
  /\ length (requests final.2) = length (requests st) + length inputs.
Proof.
  revert contents st. induction inputs as [|userInput inputs IH];
    intros contents st Hlen.
  - simpl. by rewrite app_nil_r.
  - destruct contents as [|response contents]; [simpl in Hlen; lia|].
    cbn [map chatNoStream callChat negb].
    match goal with |- context [chatNoStream World inputs _ ?s] =>
      destruct (IH contents s) as (Hc & Hm & Hr); [simpl in Hlen; lia|]
    end.
    cbv zeta in *. rewrite Hc, Hm, Hr. simpl. split; [done|].
    split; [by rewrite <- !app_assoc | lia].
Qed.

Lemma chatNoStream_history_witness :
  messages (chatNoStream unit ["hi"; "bye"]
              (map (Response true "OK") ["Hello."; "Goodbye."; "unused"])
              (start [] ())).2
  = [ plainMessage User "hi"; plainMessage Assistant "Hello.";
      plainMessage User "bye"; plainMessage Assistant "Goodbye." ].
Proof.
  destruct (chatNoStream_history unit ["hi"; "bye"]
              ["Hello."; "Goodbye."; "unused"] "OK" (start [] ()))
    as (_ & Hmessages & _); [simpl; lia|].
  exact Hmessages.
Defined.

(** X22: with a reply that completes for every line, the plain streaming
    agent builds the history by turns: for each line in order, the message
    of the user and the message of the assistant whose content is the text
    deltas of the reply put together; no message carries tool calls; the
    agent then awaits the user. *)
Theorem chatPlain_history (World : Type) (inputs : list string)
    (turns : list (list Fragment)) (st : State World) :
  length inputs <= length turns ->
  let final := chatPlain World inputs (map Stream turns) st in
  final.1 = AwaitingUser
  /\ messages final.2
     = messages st
         ++ concat (zip_with (fun userInput parts =>
                                [ plainMessage User userInput;
                                  plainMessage Assistant (fullText parts) ])
                             inputs turns)
  /\ world final.2 = world st.
Proof.
  revert turns st. induction inputs as [|userInput inputs IH];
    intros turns st Hlen.
  - simpl. by rewrite app_nil_r.
  - destruct turns as [|parts turns]; [simpl in Hlen; lia|].
    cbn [map chatPlain]. rewrite fold_consumePlain.
    match goal with |- context [chatPlain World inputs _ ?s] =>
      destruct (IH turns s) as (Hc & Hm & Hw); [simpl in Hlen; lia|]
    end.
    cbv zeta in *. rewrite Hc, Hm, Hw. simpl. split; [done|].
    split; [by rewrite <- !app_assoc | done].
Qed.

Lemma chatPlain_history_witness :
  messages (chatPlain unit ["hi"]
              (map Stream [ [ {| part_content := "Hel"; part_tool_calls := None |};
                              {| part_content := "lo."; part_tool_calls := None |} ] ])
              (start [] ())).2
  = [ plainMessage User "hi"; plainMessage Assistant "Hello." ].
Proof.
  destruct (chatPlain_history unit ["hi"]
              [ [ {| part_content := "Hel"; part_tool_calls := None |};
                  {| part_content := "lo."; part_tool_calls := None |} ] ]
              (start [] ()))
    as (_ & Hmessages & _); [simpl; lia|].
  exact Hmessages.
Defined.

(** ** The registry and the descriptors *)

(** X23: the descriptors sent to the model and the functions of the
    registry name the same tools: a name is one of the five functions
    exactly when a descriptor has that name; no two descriptors share a
    name; and every parameter a descriptor requires is one it declares. *)
Theorem tools_match_registry :
  (forall functionName : string,
     is_Some (ownTool functionName)
     <-> functionName ∈ map tool_name tools)
  /\ NoDup (map tool_name tools)
  /\ Forall (fun d => required d ⊆ map parameter (properties d)) tools.
Proof.
  split; [|split].
  - intros functionName. split.
    + unfold ownTool. intros [t Ht]. revert Ht.
      destruct (String.eqb_spec functionName "findFiles") as [->|_];
        [intros _; apply list_elem_of_In; simpl; tauto|].
      destruct (String.eqb_spec functionName "searchFileContents") as [->|_];
        [intros _; apply list_elem_of_In; simpl; tauto|].
      destruct (String.eqb_spec functionName "readFile") as [->|_];
        [intros _; apply list_elem_of_In; simpl; tauto|].
      destruct (String.eqb_spec functionName "createFile") as [->|_];
        [intros _; apply list_elem_of_In; simpl; tauto|].
      destruct (String.eqb_spec functionName "editFile") as [->|_];
        [intros _; apply list_elem_of_In; simpl; tauto|].
      intros [=].
    + simpl. rewrite !elem_of_cons, elem_of_nil.
      intros [->|[->|[->|[->|[->|[]]]]]]; by eexists.
  - apply (bool_decide_unpack (NoDup (map tool_name tools))). by vm_compute.
  - apply Forall_forall. intros d Hd parameterName.
    apply list_elem_of_In in Hd. simpl in Hd.
    rewrite !list_elem_of_In.
    destruct Hd as [<-|[<-|[<-|[<-|[<-|[]]]]]]; simpl; tauto.
Qed.
